(** * Ask-DHARMA-AI: the live voice engine

    A shallow embedding of the PCM codec of [src/services/geminiService.ts]
    ([decode], [encode], [createPcmBlob], [pcmToAudioBuffer]) and of the
    playback scheduler and capture callback of
    [src/components/LiveVoiceInterface.tsx] ([onAudio], [onInterrupted],
    [stopAllPlayback], [processor.onaudioprocess]); then of the rest of
    the two files: [generateSpeech], the stream branch of [sendLegalQuery]
    and [connectLiveDharma] ([onmessage], [sendAudioChunk], [disconnect])
    on one side, [startSession], [stopSession] and the bars of [visualize]
    on the other.

    Conventions.
    - A JavaScript string whose code units are all below 256 (a "binary
      string", or the ASCII text of a base64 payload or a MIME type) is a
      Rocq [string]; its characters are [ascii].
    - A [Uint8Array] is a [list byte]; an [Int16Array] is a [list Z] whose
      elements lie in [-32768, 32767].
    - A finite IEEE number is the rational it denotes ([Q]).  On the values
      the codec handles this is exact: a clamped float32 sample times
      [0x8000] or [0x7FFF] needs at most 40 significant bits, and an int16
      divided by [32768.0] needs at most 16, so neither the double
      arithmetic nor the store into a [Float32Array] rounds.  NaN and the
      infinities are not samples.
    - Times on the output clock are rationals too, and [+] on them is
      exact.  The scheduler only compares times, takes their maximum and
      adds a duration to a start; the statements about it are about that
      same sum.
    - A thrown exception is [None]. *)

From Stdlib Require Import ZArith NArith QArith Qabs Qround Lia Lqa Bool List.
From Stdlib Require Import Ascii String Sorted.
From Stdlib Require Import Init.Byte.
From Stdlib Require Strings.Byte.
Import ListNotations.

Local Open Scope Z_scope.

(* ------------------------------------------------------------------ *)
(** * Platform primitives the source calls *)

Module Platform.

(** [String.fromCharCode(b)] for an element of a [Uint8Array], and
    [s.charCodeAt(i)] stored back into a [Uint8Array]. *)
Definition fromCharCode (b : byte) : ascii := ascii_of_byte b.
Definition charCodeAt (c : ascii) : byte := byte_of_ascii c.

(** ** [btoa] and [atob] (WHATWG forgiving-base64) *)

Definition alphabet : list ascii :=
  list_ascii_of_string
    "ABCDEFGHIJKLMNOPQRSTUVWXYZabcdefghijklmnopqrstuvwxyz0123456789+/".

Definition pad_char : ascii := "="%char.

Definition char_of_sextet (n : N) : ascii :=
  nth (N.to_nat n) alphabet pad_char.

Fixpoint index_of (c : ascii) (l : list ascii) (i : N) : option N :=
  match l with
  | [] => None
  | x :: l' => if Ascii.eqb c x then Some i else index_of c l' (N.succ i)
  end.

Definition sextet_of_char (c : ascii) : option N := index_of c alphabet 0%N.

(** Three octets make four sextets; one or two trailing octets make two
    or three sextets followed by padding. *)
Fixpoint encode_octets (l : list ascii) : list ascii :=
  match l with
  | [] => []
  | [a] =>
      let a := N_of_ascii a in
      [char_of_sextet (a / 4); char_of_sextet ((a mod 4) * 16);
       pad_char; pad_char]%N
  | [a; b] =>
      let a := N_of_ascii a in
      let b := N_of_ascii b in
      [char_of_sextet (a / 4); char_of_sextet ((a mod 4) * 16 + b / 16);
       char_of_sextet ((b mod 16) * 4); pad_char]%N
  | a :: b :: c :: rest =>
      let a := N_of_ascii a in
      let b := N_of_ascii b in
      let c := N_of_ascii c in
      [char_of_sextet (a / 4); char_of_sextet ((a mod 4) * 16 + b / 16);
       char_of_sextet ((b mod 16) * 4 + c / 64); char_of_sextet (c mod 64)]%N
      ++ encode_octets rest
  end.

(** [btoa] throws only on a code unit above 255, which a [string] cannot
    hold, so it is total here. *)
Definition btoa (s : string) : string :=
  string_of_list_ascii (encode_octets (list_ascii_of_string s)).

(** TAB, LF, FF, CR and SPACE. *)
Definition is_ascii_whitespace (c : ascii) : bool :=
  let n := N_of_ascii c in
  ((n =? 9) || (n =? 10) || (n =? 12) || (n =? 13) || (n =? 32))%N.

Definition strip_whitespace (l : list ascii) : list ascii :=
  filter (fun c => negb (is_ascii_whitespace c)) l.

(** "If data ends with one or two U+003D (=) code points, remove them." *)
Definition strip_padding (l : list ascii) : list ascii :=
  match rev l with
  | p :: q :: r =>
      if Ascii.eqb p pad_char
      then if Ascii.eqb q pad_char then rev r else rev (q :: r)
      else l
  | [p] => if Ascii.eqb p pad_char then [] else l
  | [] => l
  end.

Fixpoint sextets_of_chars (l : list ascii) : option (list N) :=
  match l with
  | [] => Some []
  | c :: l' =>
      match sextet_of_char c, sextets_of_chars l' with
      | Some n, Some ns => Some (n :: ns)
      | _, _ => None
      end
  end.

(** 24 buffered bits give three octets; 12 left over give one (the last
    four bits are discarded) and 18 give two (the last two discarded). *)
Fixpoint decode_sextets (l : list N) : list ascii :=
  match l with
  | s0 :: s1 :: s2 :: s3 :: rest =>
      [ascii_of_N (s0 * 4 + s1 / 16);
       ascii_of_N ((s1 mod 16) * 16 + s2 / 4);
       ascii_of_N ((s2 mod 4) * 64 + s3)]%N ++ decode_sextets rest
  | [s0; s1; s2] =>
      [ascii_of_N (s0 * 4 + s1 / 16);
       ascii_of_N ((s1 mod 16) * 16 + s2 / 4)]%N
  | [s0; s1] => [ascii_of_N (s0 * 4 + s1 / 16)]%N
  | _ => []
  end.

(** [atob]: [None] stands for the [InvalidCharacterError] it throws. *)
Definition atob (data : string) : option string :=
  let d := strip_whitespace (list_ascii_of_string data) in
  let d := if (N.of_nat (List.length d) mod 4 =? 0)%N then strip_padding d else d in
  if (N.of_nat (List.length d) mod 4 =? 1)%N then None
  else match sextets_of_chars d with
       | None => None
       | Some sx => Some (string_of_list_ascii (decode_sextets sx))
       end.

(** The sextets [encode_octets] writes before the padding, and the padding
    it appends, told apart for the proofs. *)
Fixpoint sextets_of_octets (l : list ascii) : list N :=
  match l with
  | [] => []
  | [a] =>
      let a := N_of_ascii a in
      [a / 4; (a mod 4) * 16]%N
  | [a; b] =>
      let a := N_of_ascii a in
      let b := N_of_ascii b in
      [a / 4; (a mod 4) * 16 + b / 16; (b mod 16) * 4]%N
  | a :: b :: c :: rest =>
      let a := N_of_ascii a in
      let b := N_of_ascii b in
      let c := N_of_ascii c in
      [a / 4; (a mod 4) * 16 + b / 16; (b mod 16) * 4 + c / 64; c mod 64]%N
      ++ sextets_of_octets rest
  end.

Fixpoint padding_of (l : list ascii) : list ascii :=
  match l with
  | [] => []
  | [_] => [pad_char; pad_char]
  | [_; _] => [pad_char]
  | _ :: _ :: _ :: rest => padding_of rest
  end.

Definition is_alphabet (c : ascii) : bool :=
  match sextet_of_char c with Some _ => true | None => false end.

(** ** Numbers *)

Definition Qltb (a b : Q) : bool := negb (Qle_bool b a).

(** [Math.min] and [Math.max] on two finite numbers. *)
Definition Math_min (a b : Q) : Q := if Qle_bool a b then a else b.
Definition Math_max (a b : Q) : Q := if Qle_bool a b then b else a.

(** Truncation toward zero, the first step of every integer conversion. *)
Definition truncate (x : Q) : Z := Z.quot (Qnum x) (Z.pos (Qden x)).

(** ECMAScript [ToInt16], applied by a store into an [Int16Array]:
    truncate, reduce modulo 2^16, and read the result as two's complement. *)
Definition ToInt16 (x : Q) : Z :=
  let int16bit := truncate x mod 65536 in
  if int16bit >=? 32768 then int16bit - 65536 else int16bit.

(** ** Typed-array views over a shared buffer (little-endian host) *)

(** The values an element of an [Int16Array] can hold. *)
Definition int16 (v : Z) : Prop := -32768 <= v <= 32767.

Definition byte_of_Z (z : Z) : byte := byte_of_ascii (ascii_of_N (Z.to_N z)).
Definition Z_of_byte (b : byte) : Z := Z.of_N (Strings.Byte.to_N b).

(** [new Uint8Array(int16.buffer)]: two bytes per element, low byte first. *)
Fixpoint Uint8Array_of_Int16Array (l : list Z) : list byte :=
  match l with
  | [] => []
  | v :: l' =>
      let u := v mod 65536 in
      byte_of_Z (u mod 256) :: byte_of_Z (u / 256) :: Uint8Array_of_Int16Array l'
  end.

Definition int16_of_bytes (lo hi : byte) : Z :=
  let u := Z_of_byte lo + 256 * Z_of_byte hi in
  if u >=? 32768 then u - 65536 else u.

(** [new Int16Array(bytes.buffer)]: a [RangeError] ([None]) when the byte
    length of the buffer is not a multiple of 2. *)
Fixpoint Int16Array_of_buffer (bytes : list byte) : option (list Z) :=
  match bytes with
  | [] => Some []
  | [_] => None
  | lo :: hi :: rest =>
      match Int16Array_of_buffer rest with
      | None => None
      | Some l => Some (int16_of_bytes lo hi :: l)
      end
  end.

(** ** Web Audio *)

Record AudioContext := mkAudioContext {
  ctx_sampleRate : Z;
  currentTime : Q
}.

Record AudioBuffer := mkAudioBuffer {
  numberOfChannels : Z;
  buf_length : nat;
  buf_sampleRate : Z;
  channelData : list Q
}.

(** [buffer.duration]: length in sample-frames over the sample rate. *)
Definition duration (b : AudioBuffer) : Q :=
  Z.of_nat (buf_length b) # Z.to_pos (buf_sampleRate b).

(** [ctx.createBuffer(numberOfChannels, length, sampleRate)] gives a silent
    buffer.  Web Audio has it throw [NotSupportedError] ([None]) when an
    argument is zero or negative; in particular [length] must be at least
    one sample-frame. *)
Definition createBuffer (ctx : AudioContext) (channels : Z) (len : nat)
    (sampleRate : Z) : option AudioBuffer :=
  if (channels <=? 0) || (len =? 0)%nat || (sampleRate <=? 0) then None
  else Some (mkAudioBuffer channels len sampleRate (repeat 0%Q len)).

End Platform.

(* ------------------------------------------------------------------ *)
(** * [src/services/geminiService.ts]: the live API helpers *)

Module GeminiService.
Import Platform.

Definition Uint8Array := list byte.

(** [decode]: the loop copies [charCodeAt(i)] of every character. *)
Definition decode (base64 : string) : option Uint8Array :=
  match atob base64 with
  | None => None
  | Some binaryString => Some (map charCodeAt (list_ascii_of_string binaryString))
  end.

(** [encode]: the loop appends [String.fromCharCode(bytes[i])]. *)
Definition encode (bytes : Uint8Array) : string :=
  btoa (string_of_list_ascii (map fromCharCode bytes)).

Definition Float32Array := list Q.
Definition Int16Array := list Z.

Record PcmBlob := mkPcmBlob {
  data : string;
  mimeType : string
}.

(** One turn of the loop of [createPcmBlob]: the value stored in [int16[i]]. *)
Definition pcm_sample (x : Q) : Z :=
  let s := Math_max (-1) (Math_min 1 x) in
  ToInt16 (if Qltb s 0 then s * 32768 else s * 32767).

Definition createPcmBlob (data : Float32Array) : PcmBlob :=
  let int16 : Int16Array := map pcm_sample data in
  {| data := encode (Uint8Array_of_Int16Array int16);
     mimeType := "audio/pcm;rate=16000" |}.

(** [pcmToAudioBuffer]: [None] stands for an exception thrown by [atob], by
    the [Int16Array] constructor or by [createBuffer]. *)
Definition pcmToAudioBuffer (base64 : string) (ctx : AudioContext)
    (sampleRate : Z) : option AudioBuffer :=
  match decode base64 with
  | None => None
  | Some bytes =>
      match Int16Array_of_buffer bytes with
      | None => None
      | Some dataInt16 =>
          match createBuffer ctx 1 (List.length dataInt16) sampleRate with
          | None => None
          | Some buffer =>
              Some (mkAudioBuffer (numberOfChannels buffer) (buf_length buffer)
                      (buf_sampleRate buffer)
                      (map (fun v => v # 32768) dataInt16))
          end
      end
  end.

(** ** The codec as the specification words it

    "Clamp to [-1,1]; scale negative values by 32768, non-negative by
    32767, truncate to a 16-bit signed integer; pack little-endian". *)
Definition spec_clamp (x : Q) : Q :=
  if Qltb x (-1) then -1 else if Qltb 1 x then 1 else x.

Definition spec_scale (s : Q) : Q :=
  if Qltb s 0 then s * 32768 else s * 32767.

Definition spec_sample (x : Q) : Z := truncate (spec_scale (spec_clamp x)).

(** Two's complement, low-order byte first. *)
Definition pack_le16 (v : Z) : list byte :=
  [byte_of_Z (v mod 256); byte_of_Z ((v / 256) mod 256)].

Definition spec_samplesToWire (samples : list Q) : list byte :=
  flat_map (fun x => pack_le16 (spec_sample x)) samples.

End GeminiService.

(* ------------------------------------------------------------------ *)
(** * [src/components/LiveVoiceInterface.tsx]: the session component *)

Module LiveVoiceInterface.
Import Platform GeminiService.

(** An [AudioBufferSourceNode] that has been connected to the destination
    of the output context and started: [when] is the argument of
    [sourceNode.start], [stopped] records a later [node.stop()]. *)
Record SourceNode := mkSourceNode {
  node_id : nat;
  buffer : AudioBuffer;
  when : Q;
  stopped : bool
}.

(** The refs and React state of the component, followed by the three
    things its callbacks act on from outside: the source nodes started on
    the output line (oldest first), the blobs [sendAudioChunk] has built
    for [session.sendRealtimeInput] (oldest first) and the console.  The
    analyser and animation refs only serve the canvas and are left out. *)
Record Component := mkComponent {
  isActive : bool;
  status : string;
  error : option string;
  inputContextRef : option AudioContext;
  outputContextRef : option AudioContext;
  nextStartTimeRef : Q;
  audioQueueRef : list nat;
  sendAudioRef : option nat;
  disconnectRef : option nat;
  nodes : list SourceNode;
  outbound : list PcmBlob;
  console : list string
}.

Definition set_playback (cursor : Q) (queue : list nat) (ns : list SourceNode)
    (c : Component) : Component :=
  mkComponent (isActive c) (status c) (error c) (inputContextRef c)
    (outputContextRef c) cursor queue (sendAudioRef c) (disconnectRef c)
    ns (outbound c) (console c).

Definition set_outbound (l : list PcmBlob) (c : Component) : Component :=
  mkComponent (isActive c) (status c) (error c) (inputContextRef c)
    (outputContextRef c) (nextStartTimeRef c) (audioQueueRef c)
    (sendAudioRef c) (disconnectRef c) (nodes c) l (console c).

Definition set_console (l : list string) (c : Component) : Component :=
  mkComponent (isActive c) (status c) (error c) (inputContextRef c)
    (outputContextRef c) (nextStartTimeRef c) (audioQueueRef c)
    (sendAudioRef c) (disconnectRef c) (nodes c) (outbound c) l.

Definition set_outputContext (o : option AudioContext) (c : Component)
    : Component :=
  mkComponent (isActive c) (status c) (error c) (inputContextRef c)
    o (nextStartTimeRef c) (audioQueueRef c)
    (sendAudioRef c) (disconnectRef c) (nodes c) (outbound c) (console c).

(** The [onAudio] callback.  A fresh source node is named by its position
    in [nodes].  Everything after the null check sits in the [try] block,
    whose [catch] only writes to the console. *)
Definition onAudio (base64Audio : string) (c : Component) : Component :=
  match outputContextRef c with
  | None => c
  | Some ctx =>
      match pcmToAudioBuffer base64Audio ctx 24000 with
      | None => set_console (console c ++ ["Audio Decode Error"%string]) c
      | Some buffer =>
          let sourceNode := List.length (nodes c) in
          let startTime := Math_max (currentTime ctx) (nextStartTimeRef c) in
          set_playback (startTime + duration buffer)
            (audioQueueRef c ++ [sourceNode])
            (nodes c ++ [mkSourceNode sourceNode buffer startTime false]) c
      end
  end.

(** [sourceNode.onended]: [indexOf] then [splice(idx, 1)] on the array the
    ref holds when the event fires. *)
Fixpoint splice_out (node : nat) (queue : list nat) : list nat :=
  match queue with
  | [] => []
  | x :: q => if Nat.eqb x node then q else x :: splice_out node q
  end.

Definition onended (node : nat) (c : Component) : Component :=
  set_playback (nextStartTimeRef c) (splice_out node (audioQueueRef c))
    (nodes c) c.

Definition stop_node (queue : list nat) (n : SourceNode) : SourceNode :=
  if existsb (Nat.eqb (node_id n)) queue
  then mkSourceNode (node_id n) (buffer n) (when n) true
  else n.

Definition stopAllPlayback (c : Component) : Component :=
  let stoppedNodes := map (stop_node (audioQueueRef c)) (nodes c) in
  match outputContextRef c with
  | Some ctx => set_playback (currentTime ctx) [] stoppedNodes c
  | None => set_playback (nextStartTimeRef c) [] stoppedNodes c
  end.

Definition onInterrupted (c : Component) : Component := stopAllPlayback c.

(** [sendAudioChunk] of [connectLiveDharma], seen from the component: the
    blob is built at once; [outbound] lists the blobs built, in call
    order.  What the session receives of them depends on the session
    promise: see [LiveConnection] and [CapturePipeline]. *)
Definition sendAudioChunk (data : Float32Array) (c : Component) : Component :=
  let blob := createPcmBlob data in
  set_outbound (outbound c ++ [blob]) c.

(** [processor.onaudioprocess]. *)
Definition onaudioprocess (inputData : Float32Array) (c : Component)
    : Component :=
  match sendAudioRef c with
  | None => c
  | Some _ => sendAudioChunk inputData c
  end.

(** What can happen to a mounted component between [startSession] and
    [stopSession]. *)
Inductive Event :=
| InboundAudio (base64Audio : string)
| Interruption
| Ended (node : nat)
| AudioProcess (inputData : Float32Array)
| OutputClock (t : Q).

(** [OutputClock t]: the clock of the output context now reads [t]. *)
Definition tick (t : Q) (c : Component) : Component :=
  match outputContextRef c with
  | None => c
  | Some ctx => set_outputContext (Some (mkAudioContext (ctx_sampleRate ctx) t)) c
  end.

Definition step (c : Component) (e : Event) : Component :=
  match e with
  | InboundAudio base64Audio => onAudio base64Audio c
  | Interruption => onInterrupted c
  | Ended node => onended node c
  | AudioProcess inputData => onaudioprocess inputData c
  | OutputClock t => tick t c
  end.

Definition run (c : Component) (es : list Event) : Component :=
  fold_left step es c.

(** The playback units scheduled since a state with [n] source nodes. *)
Definition scheduled_since (n : nat) (c : Component) : list SourceNode :=
  skipn n (nodes c).

(** Consecutive units do not overlap / touch exactly. *)
Fixpoint no_overlap (l : list SourceNode) : Prop :=
  match l with
  | u :: (v :: _) as l' =>
      (when u + duration (buffer u) <= when v)%Q /\ no_overlap l'
  | _ => True
  end.

Fixpoint back_to_back (l : list SourceNode) : Prop :=
  match l with
  | u :: (v :: _) as l' =>
      (when v == when u + duration (buffer u))%Q /\ back_to_back l'
  | _ => True
  end.

Definition is_interruption (e : Event) : bool :=
  match e with Interruption => true | _ => false end.

(** Events that neither deliver a chunk nor interrupt. *)
Definition is_quiet (e : Event) : bool :=
  match e with
  | Ended _ | AudioProcess _ | OutputClock _ => true
  | InboundAudio _ | Interruption => false
  end.

(** The session is in Listening: what [startSession] leaves on success. *)
Definition listening (c : Component) : Prop :=
  isActive c = true /\ status c = "Listening..."%string.

(** [chained l cursor]: the units of [l] do not overlap and the last one
    ends no later than [cursor]; [abutting l cursor]: each unit starts
    exactly where the one before ends and the last one ends at [cursor]. *)
Fixpoint chained (l : list SourceNode) (cursor : Q) : Prop :=
  match l with
  | [] => True
  | [u] => (when u + duration (buffer u) <= cursor)%Q
  | u :: (v :: _) as l' =>
      (when u + duration (buffer u) <= when v)%Q /\ chained l' cursor
  end.

Fixpoint abutting (l : list SourceNode) (cursor : Q) : Prop :=
  match l with
  | [] => True
  | [u] => (cursor == when u + duration (buffer u))%Q
  | u :: (v :: _) as l' =>
      (when v == when u + duration (buffer u))%Q /\ abutting l' cursor
  end.

(** "Chunks arrive faster than they play": whenever a chunk is scheduled,
    the output clock has not passed the cursor. *)
Definition pace_ok (c : Component) (e : Event) : Prop :=
  match e, outputContextRef c with
  | InboundAudio base64Audio, Some ctx =>
      match pcmToAudioBuffer base64Audio ctx 24000 with
      | Some _ => (currentTime ctx <= nextStartTimeRef c)%Q
      | None => True
      end
  | _, _ => True
  end.

Fixpoint paced (c : Component) (es : list Event) : Prop :=
  match es with
  | [] => True
  | e :: es' => pace_ok c e /\ paced (step c e) es'
  end.

Definition no_interruption (es : list Event) : Prop :=
  forallb (fun e => negb (is_interruption e)) es = true.

(** The invariants behind no-overlap and gapless scheduling, relative to
    the [n] units that were there at the start. *)
Definition chain_inv (n : nat) (c : Component) : Prop :=
  (n <= List.length (nodes c))%nat /\
  chained (skipn n (nodes c)) (nextStartTimeRef c).

Definition abut_inv (n : nat) (c : Component) : Prop :=
  (n <= List.length (nodes c))%nat /\
  abutting (skipn n (nodes c)) (nextStartTimeRef c).

(** Everything but the console. *)
Definition forget_console (c : Component) : Component := set_console [] c.

End LiveVoiceInterface.

(* ------------------------------------------------------------------ *)
(** * Concrete sessions and chunks used to exercise the statements *)

Module Examples.
Import Platform GeminiService LiveVoiceInterface.

Definition ctx24 : AudioContext := mkAudioContext 24000 0.

(** A session as [startSession] leaves it: both contexts open, the cursor
    at the output clock, the channel installed, nothing queued. *)
Definition listening0 : Component :=
  mkComponent true "Listening..." None (Some (mkAudioContext 16000 0))
    (Some ctx24) 0 [] (Some 0%nat) (Some 0%nat) [] [] [].

Definition silence (n : nat) : Float32Array := repeat 0%Q n.

(** 1000 samples of silence as they come in from the model. *)
Definition chunk1000 : string := encode (repeat x00 2000).

(** A session with a cursor well ahead of the clock: at 1 s, a unit of
    2400 samples is queued to play from 5 s to 5.1 s. *)
Definition busy0 : Component :=
  mkComponent true "Listening..." None (Some (mkAudioContext 16000 0))
    (Some (mkAudioContext 24000 1)) (51 # 10) [0%nat] (Some 0%nat)
    (Some 0%nat)
    [mkSourceNode 0 (mkAudioBuffer 1 2400 24000 (repeat 0%Q 2400)) 5 false]
    [] [].

(** Two good chunks of two samples, a malformed one of three bytes, a
    clock reading and an ended unit. *)
Definition mixed_run : list Event :=
  [InboundAudio "AID/fw=="; OutputClock 6; InboundAudio "AAAA";
   InboundAudio "AID/fw=="; Ended 0; InboundAudio "AID/fw=="].

(** Three chunks of two samples, each handed over before the one before
    has played out: at 0 s, at 1/48000 s and, malformed ones and an ended
    unit in between, at 1/8000 s. *)
Definition paced_run : list Event :=
  [InboundAudio "AID/fw=="; OutputClock (1 # 48000); InboundAudio "AID/fw==";
   InboundAudio "AAAA"; Ended 0; OutputClock (1 # 8000);
   InboundAudio "AID/fw=="].

End Examples.

(* ------------------------------------------------------------------ *)
(** * [src/services/geminiService.ts]: the request/response services

    The remote service is an argument: what [generateContent] or
    [sendMessageStream] answers is data the functions below consume. *)

Module Services.
Import Platform GeminiService.

(** JavaScript truthiness of a string: only the empty string is falsy. *)
Definition truthy (s : string) : bool :=
  match s with EmptyString => false | String _ _ => true end.

(** ** [generateSpeech] *)

(** What [ai.models.generateContent] does: reject, or resolve with a
    response in which the optional chain
    [response?.candidates?.[0]?.content?.parts?.[0]?.inlineData?.data]
    is undefined or a string. *)
Inductive TtsReply :=
| TtsRejected
| TtsResponse (inlineData : option string).

(** [generateSpeech]: the buffer or [null], and what is written to the
    console.  The context it creates is fresh: 24 kHz, clock at zero. *)
Definition generateSpeech (generateContent : string -> TtsReply)
    (text : string) : option AudioBuffer * list string :=
  match generateContent text with
  | TtsRejected => (None, ["TTS Error"%string])
  | TtsResponse None => (None, [])
  | TtsResponse (Some base64Audio) =>
      if truthy base64Audio then
        let audioContext := mkAudioContext 24000 0 in
        match pcmToAudioBuffer base64Audio audioContext 24000 with
        | Some audioBuffer => (Some audioBuffer, [])
        | None => (None, ["TTS Error"%string])
        end
      else (None, [])
  end.

(** ** [sendLegalQuery], stream mode *)

(** [chunk.web?.uri] of a grounding chunk. *)
Record GroundingChunk := mkGroundingChunk { web_uri : option string }.

(** [response?.candidates?.[0]?.groundingMetadata?.groundingChunks]. *)
Record Response := mkResponse {
  groundingChunks : option (list GroundingChunk)
}.

(** How the iteration over the result stream ends: it throws, or it is
    done and [resultStream.response] is awaited. *)
Inductive StreamEnd :=
| StreamThrows
| StreamDone (response : option Response).

(** What [chat.sendMessageStream] does: reject, or resolve with a stream
    that yields chunks, each with its [chunk.text] (possibly undefined),
    and then ends. *)
Inductive StreamReply :=
| StreamRejected
| Stream (chunks : list (option string)) (ending : StreamEnd).

Record ChatResponse := mkChatResponse {
  text : string;
  groundingUrls : list string
}.

(** The [for await] loop: [fullText] and the arguments [onStreamUpdate]
    has been called with, oldest first. *)
Fixpoint consume (chunks : list (option string)) (fullText : string)
    (updates : list string) : string * list string :=
  match chunks with
  | [] => (fullText, updates)
  | chunkText :: rest =>
      match chunkText with
      | Some t =>
          if truthy t
          then consume rest (fullText ++ t) (updates ++ [(fullText ++ t)%string])
          else consume rest fullText updates
      | None => consume rest fullText updates
      end
  end.

(** The [forEach] over the grounding chunks. *)
Fixpoint collect_uris (chunks : list GroundingChunk) : list string :=
  match chunks with
  | [] => []
  | chunk :: rest =>
      match web_uri chunk with
      | Some uri => if truthy uri then uri :: collect_uris rest
                    else collect_uris rest
      | None => collect_uris rest
      end
  end.

Definition error_response : ChatResponse :=
  mkChatResponse
    "An error occurred while consulting DHARMA. Please try again." [].

(** The stream branch of [sendLegalQuery] with its [catch]: the response,
    the calls of [onStreamUpdate] and the console. *)
Definition sendLegalQuery_stream (reply : StreamReply)
    : ChatResponse * list string * list string :=
  match reply with
  | StreamRejected => (error_response, [], ["Gemini API Error:"%string])
  | Stream chunks ending =>
      let '(fullText, updates) := consume chunks EmptyString [] in
      match ending with
      | StreamThrows => (error_response, updates, ["Gemini API Error:"%string])
      | StreamDone response =>
          let urls :=
            match response with
            | Some r =>
                match groundingChunks r with
                | Some gs => collect_uris gs
                | None => []
                end
            | None => []
            end in
          (mkChatResponse fullText urls, updates, [])
      end
  end.

(** The text of a chunk with [undefined] read as empty. *)
Definition chunk_text (c : option string) : string :=
  match c with Some t => t | None => EmptyString end.

End Services.

(* ------------------------------------------------------------------ *)
(** * [connectLiveDharma]: the live connection *)

Module LiveConnection.
Import Platform GeminiService LiveVoiceInterface Services.

(** A [LiveServerMessage] as [onmessage] reads it:
    [msg.serverContent?.modelTurn?.parts?.[0]?.inlineData?.data] and
    [msg.serverContent?.interrupted]. *)
Record LiveServerMessage := mkLiveServerMessage {
  audioData : option string;
  interrupted : bool
}.

(** [onmessage], with the callbacks of the component plugged in: audio
    first, then the interruption. *)
Definition onmessage (msg : LiveServerMessage) (c : Component) : Component :=
  let c1 :=
    match audioData msg with
    | Some d => if truthy d then onAudio d c else c
    | None => c
    end in
  if interrupted msg
  then onInterrupted (set_console (console c1 ++ ["Model interrupted"%string]) c1)
  else c1.

(** What is asked of the session: [session.sendRealtimeInput({media})] or
    [session.close()]. *)
Inductive SessionCall :=
| SendRealtimeInput (media : PcmBlob)
| Close.

Inductive PromiseState := Pending | Fulfilled | Rejected.

(** The session promise of one [connectLiveDharma]: its state, the
    reactions registered with [then] that have not run yet, and the calls
    made on the session so far, oldest first. *)
Record Connection := mkConnection {
  sessionPromise : PromiseState;
  reactions : list SessionCall;
  calls : list SessionCall
}.

Definition connect : Connection := mkConnection Pending [] [].

(** [sessionPromise.then(session => ...)]: on a pending promise the
    reaction waits; on a fulfilled one it runs before anything else
    happens; on a rejected one it never runs. *)
Definition then_call (r : SessionCall) (k : Connection) : Connection :=
  match sessionPromise k with
  | Pending => mkConnection Pending (reactions k ++ [r]) (calls k)
  | Fulfilled => mkConnection Fulfilled (reactions k) (calls k ++ [r])
  | Rejected => k
  end.

Definition live_sendAudioChunk (data : Float32Array) (k : Connection)
    : Connection :=
  let blob := createPcmBlob data in
  then_call (SendRealtimeInput blob) k.

Definition live_disconnect (k : Connection) : Connection := then_call Close k.

(** The promise settles once; fulfilment runs the waiting reactions in
    the order they were registered. *)
Definition fulfil (k : Connection) : Connection :=
  match sessionPromise k with
  | Pending => mkConnection Fulfilled [] (calls k ++ reactions k)
  | _ => k
  end.

Definition reject (k : Connection) : Connection :=
  match sessionPromise k with
  | Pending => mkConnection Rejected [] (calls k)
  | _ => k
  end.

Inductive LiveEvent :=
| CallSend (data : Float32Array)
| CallDisconnect
| Opens
| Fails.

Definition live_step (k : Connection) (e : LiveEvent) : Connection :=
  match e with
  | CallSend data => live_sendAudioChunk data k
  | CallDisconnect => live_disconnect k
  | Opens => fulfil k
  | Fails => reject k
  end.

Definition live_run (k : Connection) (es : list LiveEvent) : Connection :=
  fold_left live_step es k.

(** What the caller asked for, in call order. *)
Fixpoint requested (es : list LiveEvent) : list SessionCall :=
  match es with
  | [] => []
  | CallSend data :: es' => SendRealtimeInput (createPcmBlob data) :: requested es'
  | CallDisconnect :: es' => Close :: requested es'
  | _ :: es' => requested es'
  end.

(** How the promise settled in a run that starts with it pending: the
    first of [Opens] and [Fails] decides. *)
Fixpoint settled (es : list LiveEvent) : PromiseState :=
  match es with
  | [] => Pending
  | Opens :: _ => Fulfilled
  | Fails :: _ => Rejected
  | _ :: es' => settled es'
  end.

End LiveConnection.

(* ------------------------------------------------------------------ *)
(** * The capture pipeline: the processor, the send handle, the session *)

Module CapturePipeline.
Import Platform GeminiService LiveVoiceInterface LiveConnection.

(** The component and the connection whose [sendAudioChunk] its
    [sendAudioRef] holds. *)
Record Pipeline := mkPipeline {
  pl_component : Component;
  pl_connection : Connection
}.

(** What happens to the pair: an event of the component, or the session
    promise settling. *)
Inductive PipelineEvent :=
| OnComponent (e : Event)
| SessionOpens
| SessionRefused.

(** [processor.onaudioprocess] with [sendAudioRef.current] resolved: past
    the guard, [sendAudioChunk] builds the blob and registers the
    reaction that passes it to the session.  The session promise settles
    on its own; what [onError] then does to the component is an event of
    the component's. *)
Definition pipeline_step (p : Pipeline) (e : PipelineEvent) : Pipeline :=
  match e with
  | OnComponent (AudioProcess inputData) =>
      match sendAudioRef (pl_component p) with
      | None => p
      | Some _ =>
          mkPipeline (onaudioprocess inputData (pl_component p))
            (live_sendAudioChunk inputData (pl_connection p))
      end
  | OnComponent e' => mkPipeline (step (pl_component p) e') (pl_connection p)
  | SessionOpens => mkPipeline (pl_component p) (fulfil (pl_connection p))
  | SessionRefused => mkPipeline (pl_component p) (reject (pl_connection p))
  end.

Definition pipeline_run (p : Pipeline) (es : list PipelineEvent) : Pipeline :=
  fold_left pipeline_step es p.

(** The frames captured in a run, oldest first. *)
Fixpoint captured (es : list PipelineEvent) : list Float32Array :=
  match es with
  | [] => []
  | OnComponent (AudioProcess inputData) :: es' => inputData :: captured es'
  | _ :: es' => captured es'
  end.

(** How the session promise, pending at first, has settled in a run. *)
Fixpoint session_outcome (es : list PipelineEvent) : PromiseState :=
  match es with
  | [] => Pending
  | SessionOpens :: _ => Fulfilled
  | SessionRefused :: _ => Rejected
  | _ :: es' => session_outcome es'
  end.

(** The chunk emitted for a frame. *)
Definition wire_chunk (frame : Float32Array) : SessionCall :=
  SendRealtimeInput (createPcmBlob frame).

(** The same run as the connection sees it. *)
Fixpoint connection_events (es : list PipelineEvent) : list LiveEvent :=
  match es with
  | [] => []
  | OnComponent (AudioProcess inputData) :: es' =>
      CallSend inputData :: connection_events es'
  | OnComponent _ :: es' => connection_events es'
  | SessionOpens :: es' => Opens :: connection_events es'
  | SessionRefused :: es' => Fails :: connection_events es'
  end.

End CapturePipeline.

(* ------------------------------------------------------------------ *)
(** * [LiveVoiceInterface.tsx]: starting and stopping the session *)

Module Session.
Import Platform GeminiService LiveVoiceInterface.

(** The component together with what [stopSession] does to the outside:
    the audio contexts [close()] was called on and the connections
    [disconnect()] was called on, oldest first.  The microphone stream of
    [getUserMedia] is not part of it: [stopSession] does not touch it. *)
Record World := mkWorld {
  component : Component;
  closed : list AudioContext;
  disconnected : list nat
}.

Definition stopSession (w : World) : World :=
  let c := component w in
  let disconnected' :=
    match disconnectRef c with
    | Some disconnect => disconnected w ++ [disconnect]
    | None => disconnected w
    end in
  let closed1 :=
    match inputContextRef c with
    | Some ctx => closed w ++ [ctx]
    | None => closed w
    end in
  let closed2 :=
    match outputContextRef c with
    | Some ctx => closed1 ++ [ctx]
    | None => closed1
    end in
  mkWorld
    (mkComponent false "Disconnected" (error c) None None (nextStartTimeRef c)
       [] None None (nodes c) (outbound c) (console c))
    closed2 disconnected'.

Definition setError (e : option string) (w : World) : World :=
  let c := component w in
  mkWorld
    (mkComponent (isActive c) (status c) e (inputContextRef c)
       (outputContextRef c) (nextStartTimeRef c) (audioQueueRef c)
       (sendAudioRef c) (disconnectRef c) (nodes c) (outbound c) (console c))
    (closed w) (disconnected w).

Definition setStatus (s : string) (w : World) : World :=
  let c := component w in
  mkWorld
    (mkComponent (isActive c) s (error c) (inputContextRef c)
       (outputContextRef c) (nextStartTimeRef c) (audioQueueRef c)
       (sendAudioRef c) (disconnectRef c) (nodes c) (outbound c) (console c))
    (closed w) (disconnected w).

(** The [onClose] and [onError] callbacks given to [connectLiveDharma]. *)
Definition onClose (w : World) : World := stopSession w.

Definition onError (w : World) : World :=
  stopSession (setError (Some "Connection Error"%string) w).

(** [startSession] runs in three stretches, cut at its two [await]s.  The
    first, up to [await getUserMedia]: the two contexts are created (they
    are given here as [inputCtx] and [outputCtx]) and stored, and the
    cursor is set to the output clock. *)
Definition startSession_begin (inputCtx outputCtx : AudioContext) (w : World)
    : World :=
  let c := component w in
  mkWorld
    (mkComponent (isActive c) "Requesting Mic..." None (Some inputCtx)
       (Some outputCtx) (currentTime outputCtx) (audioQueueRef c)
       (sendAudioRef c) (disconnectRef c) (nodes c) (outbound c) (console c))
    (closed w) (disconnected w).

(** The second, from the stream to [await connectLiveDharma]: the
    analyser and the processor are wired; of the modelled state only the
    status changes. *)
Definition startSession_wired (w : World) : World :=
  setStatus "Connecting to DHARMA..." w.

(** The third, once [connectLiveDharma] has returned the handles of
    connection [live]. *)
Definition startSession_connected (live : nat) (w : World) : World :=
  let c := component w in
  mkWorld
    (mkComponent true "Listening..." (error c) (inputContextRef c)
       (outputContextRef c) (nextStartTimeRef c) (audioQueueRef c)
       (Some live) (Some live) (nodes c) (outbound c) (console c))
    (closed w) (disconnected w).

(** The [catch] of [startSession], reached when [getUserMedia] rejects
    with [err].  ([connectLiveDharma] awaits nothing and does not reject: a
    refused connection arrives through [onError].) *)
Definition startSession_failed (err : string) (w : World) : World :=
  let c := component w in
  let logged :=
    mkWorld (set_console (console c ++ [err]) c) (closed w) (disconnected w) in
  stopSession
    (setStatus "Error"
       (setError (Some "Microphone access failed or Connection rejected."%string)
          logged)).

(** The events of the component act on the component of the world. *)
Definition world_run (w : World) (es : list Event) : World :=
  mkWorld (run (component w) es) (closed w) (disconnected w).

(** A freshly mounted component: the initial values of the refs and of
    the React state. *)
Definition mounted : World :=
  mkWorld
    (mkComponent false "Ready to Connect" None None None 0 [] None None [] [] [])
    [] [].

End Session.

(* ------------------------------------------------------------------ *)
(** * [visualize]: the bars drawn on the canvas *)

Module Visualizer.
Import Platform.

Definition barsToDraw : Z := 20.

(** [Math.floor(bufferLength / 2 / barsToDraw)]. *)
Definition bar_step (bufferLength : Z) : Z :=
  Qfloor (inject_Z bufferLength / 2 / inject_Z barsToDraw).

(** One [fillRect] with the opacity of its fill style. *)
Record Bar := mkBar {
  bar_x : Q;
  bar_y : Q;
  bar_w : Q;
  bar_h : Q;
  bar_alpha : Q
}.

(** The body of the [for] loop for bar [i], [x] being the running
    abscissa; [None] when [dataArray[index]] is undefined. *)
Definition draw_bar (dataArray : list Z) (width height : Q) (i : Z) (x : Q)
    : option Bar :=
  let index := i * bar_step (Z.of_nat (List.length dataArray)) in
  match nth_error dataArray (Z.to_nat index) with
  | None => None
  | Some value =>
      let barHeight := ((inject_Z value / 255) * height)%Q in
      Some (mkBar x ((height - barHeight) / 2)
              (width / inject_Z barsToDraw - 2) barHeight
              (inject_Z value / 255))
  end.

(** The loop: [n] more bars from bar [i] on, [x] advancing by
    [width / barsToDraw]. *)
Fixpoint draw_bars (dataArray : list Z) (width height : Q) (n : nat) (i : Z)
    (x : Q) : list (option Bar) :=
  match n with
  | O => []
  | S n' =>
      draw_bar dataArray width height i x
      :: draw_bars dataArray width height n' (i + 1)
           (x + width / inject_Z barsToDraw)
  end.

(** [draw]: nothing when the closure's [isActive] is false. *)
Definition draw (isActive : bool) (dataArray : list Z) (width height : Q)
    : list (option Bar) :=
  if isActive then draw_bars dataArray width height (Z.to_nat barsToDraw) 0 0
  else [].

(** The canvas as [visualize] uses it: its [width] and [height]. *)
Record Canvas := mkCanvas {
  canvas_width : Q;
  canvas_height : Q
}.

(** [visualize] as one render defines it, [isActive] being the state that
    render saw: nothing without a canvas or an analyser, else the first
    call of [draw], on the analyser's frequency data. *)
Definition visualize (isActive : bool) (canvasRef : option Canvas)
    (analyserRef : option (list Z)) : list (option Bar) :=
  match canvasRef, analyserRef with
  | Some canvas, Some dataArray =>
      draw isActive dataArray (canvas_width canvas) (canvas_height canvas)
  | _, _ => []
  end.

(** [onClick={isActive ? stopSession : startSession}]. *)
Inductive ClickHandler := ClickStopSession | ClickStartSession.

Definition button_onClick (isActive : bool) : ClickHandler :=
  if isActive then ClickStopSession else ClickStartSession.

(** What a click on the button of a render with state [isActive] draws:
    [startSession], offered by that render, ends with the [visualize()] of
    the same render; [stopSession] draws nothing. *)
Definition click_draws (isActive : bool) (canvasRef : option Canvas)
    (analyserRef : option (list Z)) : list (option Bar) :=
  match button_onClick isActive with
  | ClickStartSession => visualize isActive canvasRef analyserRef
  | ClickStopSession => []
  end.

End Visualizer.

(* ------------------------------------------------------------------ *)
(** * Notions used to state further properties of the scheduler *)

Module SchedulerNotions.
Import Platform GeminiService LiveVoiceInterface.

(** Source nodes are named by their position, the queue holds no node
    twice, and every queued node exists and has not been stopped. *)
Definition well_formed (c : Component) : Prop :=
  (forall i n, nth_error (nodes c) i = Some n -> node_id n = i) /\
  NoDup (audioQueueRef c) /\
  (forall id, In id (audioQueueRef c) ->
     exists n, nth_error (nodes c) id = Some n /\ stopped n = false).

(** The units whose [onended] fires in a run. *)
Fixpoint ended_in (es : list Event) : list nat :=
  match es with
  | [] => []
  | Ended node :: es' => node :: ended_in es'
  | _ :: es' => ended_in es'
  end.

(** Every unit is stopped, still queued, or among the units [done]. *)
Definition accounted (done : list nat) (c : Component) : Prop :=
  forall n, In n (nodes c) ->
    stopped n = true \/ In (node_id n) (audioQueueRef c) \/ In (node_id n) done.

End SchedulerNotions.

(* ------------------------------------------------------------------ *)
(** * Notions used to state further properties of the codec *)

Module CodecNotions.
Import Platform GeminiService.

(** What an int16 becomes when it is decoded by [pcmToAudioBuffer] and
    encoded again by [createPcmBlob]. *)
Definition reencoded (v : Z) : Z := if 0 <? v then v - 1 else v.

(** The samples a chunk of bytes holds, whatever its length: the pairs of
    bytes read low byte first, a trailing odd byte ignored. *)
Fixpoint int16_pairs (bytes : list byte) : list Z :=
  match bytes with
  | lo :: hi :: rest => int16_of_bytes lo hi :: int16_pairs rest
  | _ => []
  end.

End CodecNotions.

(* ------------------------------------------------------------------ *)
(** * Test vectors *)

Section TestVectors.
Import Platform GeminiService LiveVoiceInterface Examples.
Local Open Scope string_scope.

(** RFC 4648, section 10. *)
Example btoa_rfc4648 :
  map btoa ["f"; "fo"; "foo"; "foob"; "fooba"; "foobar"]
  = ["Zg=="; "Zm8="; "Zm9v"; "Zm9vYg=="; "Zm9vYmE="; "Zm9vYmFy"].
Proof. reflexivity. Qed.

(** Forgiving decoding: padding is optional and whitespace is skipped; a
    lone character, misplaced padding and foreign characters are errors. *)
Example atob_forgiving :
  map atob ["Zm9vYg=="; "Zm9vYg"; "Zm9v Yg=="; "Z"; "Zm=9"; "Zm9v!"; "====";
            " "]
  = [Some "foob"; Some "foob"; Some "foob"; None; None; None; None; Some ""].
Proof. reflexivity. Qed.

(** Out of range, [ToInt16] wraps; [createPcmBlob] clamps first. *)
Example ToInt16_wraps :
  map ToInt16 [32767; 32768; 40000; -32768; -32769; 3 # 2; -3 # 2]%Q
  = [32767; -32768; -25536; -32768; 32767; 1; -1].
Proof. reflexivity. Qed.

Example pcm_sample_values :
  map pcm_sample [0; 1; -1; 1 # 2; -1 # 2; 65535 # 65536; 5; -7]%Q
  = [0; 32767; -32768; 16383; -16384; 32766; 32767; -32768].
Proof. reflexivity. Qed.

Example createPcmBlob_value :
  createPcmBlob [0; 1; -1]%Q
  = {| data := "AAD/fwCA"; mimeType := "audio/pcm;rate=16000" |}.
Proof. reflexivity. Qed.

(** Two chunks, a flush at 1 s, then a third chunk at 1.5 s. *)
Example run_value :
  let c := run listening0
             [InboundAudio "AID/fw=="; InboundAudio "AID/fw=="; OutputClock 1;
              Interruption; OutputClock (3 # 2); InboundAudio "AID/fw=="] in
  map when (nodes c) = [0; 0 + (2 # 24000); 3 # 2]%Q /\
  map stopped (nodes c) = [true; true; false] /\
  audioQueueRef c = [2%nat].
Proof. repeat split. Qed.

End TestVectors.

(* ------------------------------------------------------------------ *)
(** * Base64: [atob] undoes [btoa] *)

Section Base64Facts.
Import Platform.

Lemma list_ind3 (A : Type) (P : list A -> Prop) :
  P [] -> (forall a, P [a]) -> (forall a b, P [a; b]) ->
  (forall a b c l, P l -> P (a :: b :: c :: l)) ->
  forall l, P l.
Proof.
  intros H0 H1 H2 H3.
  assert (H : forall l, P l /\ (forall a, P (a :: l)) /\ (forall a b, P (a :: b :: l))).
  { induction l as [|x l [IH0 [IH1 IH2]]].
    - repeat split; auto.
    - repeat split; auto. }
  intro l. apply H.
Qed.

Lemma sextet_table :
  forallb (fun n => match sextet_of_char (char_of_sextet n) with
                    | Some m => N.eqb m n
                    | None => false
                    end) (map N.of_nat (seq 0 64)) = true.
Proof. vm_compute. reflexivity. Qed.

Lemma sextet_of_char_of_sextet (n : N) :
  (n < 64)%N -> sextet_of_char (char_of_sextet n) = Some n.
Proof.
  intro Hn.
  pose proof sextet_table as T. rewrite forallb_forall in T.
  specialize (T n).
  assert (Hin : In n (map N.of_nat (seq 0 64))).
  { apply in_map_iff. exists (N.to_nat n). split; [apply N2Nat.id|].
    apply in_seq. lia. }
  specialize (T Hin).
  destruct (sextet_of_char (char_of_sextet n)) as [m|]; [|discriminate].
  apply N.eqb_eq in T. now subst.
Qed.

Lemma is_alphabet_char_of_sextet (n : N) :
  (n < 64)%N -> is_alphabet (char_of_sextet n) = true.
Proof.
  intro Hn. unfold is_alphabet. now rewrite sextet_of_char_of_sextet.
Qed.

Lemma alphabet_not_whitespace (c : ascii) :
  is_alphabet c = true -> is_ascii_whitespace c = false.
Proof.
  destruct c as [[] [] [] [] [] [] [] []]; vm_compute; congruence.
Qed.

Lemma alphabet_not_pad (c : ascii) :
  is_alphabet c = true -> Ascii.eqb c pad_char = false.
Proof.
  destruct c as [[] [] [] [] [] [] [] []]; vm_compute; congruence.
Qed.

Ltac euclid := zify; Z.to_euclidean_division_equations; lia.

Lemma octet_sextets (a b c : N) :
  (a < 256 -> b < 256 -> c < 256 ->
   a / 4 < 64 /\ (a mod 4) * 16 + b / 16 < 64 /\
   (b mod 16) * 4 + c / 64 < 64 /\ c mod 64 < 64 /\
   (a mod 4) * 16 < 64 /\ (b mod 16) * 4 < 64)%N.
Proof. intros. repeat split; euclid. Qed.

Lemma sextets_octet (a b c : N) :
  (a < 256 -> b < 256 -> c < 256 ->
   (a / 4) * 4 + ((a mod 4) * 16 + b / 16) / 16 = a /\
   (((a mod 4) * 16 + b / 16) mod 16) * 16 + ((b mod 16) * 4 + c / 64) / 4 = b /\
   (((b mod 16) * 4 + c / 64) mod 4) * 64 + c mod 64 = c /\
   (a / 4) * 4 + ((a mod 4) * 16) / 16 = a /\
   (((a mod 4) * 16 + b / 16) mod 16) * 16 + ((b mod 16) * 4) / 4 = b)%N.
Proof. intros. repeat split; euclid. Qed.

Lemma sextets_of_octets_bounded (l : list ascii) :
  Forall (fun n => (n < 64)%N) (sextets_of_octets l).
Proof.
  induction l as [|a|a b|a b c l IH] using list_ind3; cbn [sextets_of_octets].
  - constructor.
  - pose proof (octet_sextets _ _ _ (N_ascii_bounded a) (N_ascii_bounded a)
                  (N_ascii_bounded a)) as H.
    repeat constructor; apply H.
  - pose proof (octet_sextets _ _ _ (N_ascii_bounded a) (N_ascii_bounded b)
                  (N_ascii_bounded b)) as H.
    repeat constructor; apply H.
  - pose proof (octet_sextets _ _ _ (N_ascii_bounded a) (N_ascii_bounded b)
                  (N_ascii_bounded c)) as H.
    cbn [app]. repeat (constructor; [apply H|]). exact IH.
Qed.

Lemma encode_octets_split (l : list ascii) :
  encode_octets l = map char_of_sextet (sextets_of_octets l) ++ padding_of l.
Proof.
  induction l as [|a|a b|a b c l IH] using list_ind3;
    cbn [encode_octets sextets_of_octets padding_of map app]; try reflexivity.
  rewrite IH. reflexivity.
Qed.

Lemma decode_sextets_of_octets (l : list ascii) :
  decode_sextets (sextets_of_octets l) = l.
Proof.
  induction l as [|a|a b|a b c l IH] using list_ind3;
    cbn [sextets_of_octets decode_sextets app].
  - reflexivity.
  - destruct (sextets_octet _ _ _ (N_ascii_bounded a) (N_ascii_bounded a)
                (N_ascii_bounded a)) as (_ & _ & _ & E & _).
    rewrite E, ascii_N_embedding. reflexivity.
  - destruct (sextets_octet _ _ _ (N_ascii_bounded a) (N_ascii_bounded b)
                (N_ascii_bounded b)) as (E1 & _ & _ & _ & E2).
    rewrite E1, E2, !ascii_N_embedding. reflexivity.
  - destruct (sextets_octet _ _ _ (N_ascii_bounded a) (N_ascii_bounded b)
                (N_ascii_bounded c)) as (E1 & E2 & E3 & _ & _).
    rewrite E1, E2, E3, !ascii_N_embedding, IH. reflexivity.
Qed.

Lemma strip_whitespace_id (l : list ascii) :
  Forall (fun c => is_ascii_whitespace c = false) l -> strip_whitespace l = l.
Proof.
  unfold strip_whitespace.
  induction 1 as [|c l Hc _ IH]; cbn [filter]; [reflexivity|].
  rewrite Hc. cbn [negb]. now rewrite IH.
Qed.

Lemma sextet_chars_alphabet (ns : list N) :
  Forall (fun n => (n < 64)%N) ns ->
  Forall (fun c => is_alphabet c = true) (map char_of_sextet ns).
Proof.
  induction 1 as [|n ns Hn _ IH]; cbn [map]; constructor;
    [now apply is_alphabet_char_of_sextet | exact IH].
Qed.

Lemma sextets_of_chars_of_sextets (ns : list N) :
  Forall (fun n => (n < 64)%N) ns ->
  sextets_of_chars (map char_of_sextet ns) = Some ns.
Proof.
  induction 1 as [|n ns Hn _ IH]; cbn [map sextets_of_chars]; [reflexivity|].
  now rewrite (sextet_of_char_of_sextet n Hn), IH.
Qed.

Lemma rev_head_alphabet (l r : list ascii) (q : ascii) :
  Forall (fun c => is_alphabet c = true) l -> rev l = q :: r ->
  is_alphabet q = true.
Proof.
  intros Hl E. rewrite Forall_forall in Hl. apply Hl.
  apply in_rev. rewrite E. now left.
Qed.

Lemma strip_padding_none (l : list ascii) :
  Forall (fun c => is_alphabet c = true) l -> strip_padding l = l.
Proof.
  intro Hl. unfold strip_padding.
  destruct (rev l) as [|p [|q r]] eqn:E; [reflexivity| |];
    now rewrite (alphabet_not_pad p (rev_head_alphabet _ _ _ Hl E)).
Qed.

Lemma strip_padding_one (l : list ascii) :
  Forall (fun c => is_alphabet c = true) l ->
  strip_padding (l ++ [pad_char]) = l.
Proof.
  intro Hl. unfold strip_padding. rewrite rev_app_distr. cbn [rev app].
  destruct (rev l) as [|q r] eqn:E.
  - cbn. apply (f_equal (@rev ascii)) in E. rewrite rev_involutive in E.
    now subst.
  - rewrite (alphabet_not_pad q (rev_head_alphabet _ _ _ Hl E)).
    change (Ascii.eqb pad_char pad_char) with true. cbv iota.
    change (rev (q :: r) = l). rewrite <- E. apply rev_involutive.
Qed.

Lemma strip_padding_two (l : list ascii) :
  strip_padding (l ++ [pad_char; pad_char]) = l.
Proof.
  unfold strip_padding. rewrite rev_app_distr. cbn. apply rev_involutive.
Qed.

(** Four sextets per full group of three octets, then nothing, two
    sextets and two pads, or three sextets and one pad. *)
Lemma sextets_shape (l : list ascii) :
  exists k : nat,
    (padding_of l = [] /\ List.length (sextets_of_octets l) = (4 * k)%nat) \/
    (padding_of l = [pad_char; pad_char] /\
     List.length (sextets_of_octets l) = (4 * k + 2)%nat) \/
    (padding_of l = [pad_char] /\
     List.length (sextets_of_octets l) = (4 * k + 3)%nat).
Proof.
  induction l as [|a|a b|a b c l [k IH]] using list_ind3.
  - exists 0%nat. left. split; reflexivity.
  - exists 0%nat. right. left. split; reflexivity.
  - exists 0%nat. right. right. split; reflexivity.
  - exists (S k). cbn [padding_of sextets_of_octets app List.length].
    destruct IH as [[-> ->]|[[-> ->]|[-> ->]]]; [left|right; left|right; right];
      (split; [reflexivity|lia]).
Qed.

(** [atob (btoa s) = s] for every binary string [s]. *)
Lemma atob_btoa (s : string) : atob (btoa s) = Some s.
Proof.
  unfold atob, btoa.
  rewrite list_ascii_of_string_of_list_ascii, encode_octets_split.
  set (l := list_ascii_of_string s).
  pose proof (sextets_of_octets_bounded l) as Hb.
  pose proof (sextet_chars_alphabet _ Hb) as Ha.
  set (body := map char_of_sextet (sextets_of_octets l)) in *.
  assert (Hlen : List.length body = List.length (sextets_of_octets l))
    by apply length_map.
  assert (Hws : strip_whitespace (body ++ padding_of l) = body ++ padding_of l).
  { apply strip_whitespace_id, Forall_app. split.
    - eapply Forall_impl; [|exact Ha]. apply alphabet_not_whitespace.
    - clear. induction l as [|a|a b|a b c l IH] using list_ind3; cbn;
        repeat constructor; assumption. }
  rewrite Hws.
  assert (Hdec : sextets_of_chars body = Some (sextets_of_octets l))
    by (apply sextets_of_chars_of_sextets; exact Hb).
  assert (Hfin : string_of_list_ascii (decode_sextets (sextets_of_octets l)) = s).
  { rewrite decode_sextets_of_octets. apply string_of_list_ascii_of_string. }
  destruct (sextets_shape l) as [k [[Hp Hk]|[[Hp Hk]|[Hp Hk]]]]; rewrite Hp.
  - rewrite app_nil_r.
    replace (N.of_nat (List.length body) mod 4 =? 0)%N with true
      by (symmetry; apply N.eqb_eq; rewrite Hlen, Hk; euclid).
    rewrite strip_padding_none by exact Ha.
    replace (N.of_nat (List.length body) mod 4 =? 1)%N with false
      by (symmetry; apply N.eqb_neq; rewrite Hlen, Hk; euclid).
    now rewrite Hdec, Hfin.
  - replace (N.of_nat (List.length (body ++ [pad_char; pad_char])) mod 4 =? 0)%N
      with true
      by (symmetry; apply N.eqb_eq; rewrite length_app, Hlen, Hk; cbn; euclid).
    rewrite strip_padding_two.
    replace (N.of_nat (List.length body) mod 4 =? 1)%N with false
      by (symmetry; apply N.eqb_neq; rewrite Hlen, Hk; euclid).
    now rewrite Hdec, Hfin.
  - replace (N.of_nat (List.length (body ++ [pad_char])) mod 4 =? 0)%N
      with true
      by (symmetry; apply N.eqb_eq; rewrite length_app, Hlen, Hk; cbn; euclid).
    rewrite strip_padding_one by exact Ha.
    replace (N.of_nat (List.length body) mod 4 =? 1)%N with false
      by (symmetry; apply N.eqb_neq; rewrite Hlen, Hk; euclid).
    now rewrite Hdec, Hfin.
Qed.

End Base64Facts.

(* ------------------------------------------------------------------ *)
(** * The codec: bytes, integers and samples *)

Section CodecFacts.
Import Platform GeminiService.

Lemma decode_encode_bytes (b : Uint8Array) : decode (encode b) = Some b.
Proof.
  unfold decode, encode. rewrite atob_btoa.
  rewrite list_ascii_of_string_of_list_ascii, map_map. f_equal.
  rewrite <- (map_id b) at 2. apply map_ext.
  intro x. apply byte_of_ascii_of_byte.
Qed.

Lemma Z_of_byte_of_Z (z : Z) : 0 <= z < 256 -> Z_of_byte (byte_of_Z z) = z.
Proof.
  intro Hz. unfold Z_of_byte, byte_of_Z.
  pose proof (byte_of_ascii_via_N (ascii_of_N (Z.to_N z))) as E.
  symmetry in E. apply Strings.Byte.to_of_N in E. rewrite E.
  rewrite N_ascii_embedding by lia. lia.
Qed.

Lemma Z_of_byte_range (b : byte) : 0 <= Z_of_byte b < 256.
Proof.
  unfold Z_of_byte. pose proof (Strings.Byte.to_N_bounded b). lia.
Qed.

Lemma int16_of_bytes_range (lo hi : byte) : int16 (int16_of_bytes lo hi).
Proof.
  unfold int16, int16_of_bytes.
  pose proof (Z_of_byte_range lo). pose proof (Z_of_byte_range hi).
  destruct (Z.geb_spec (Z_of_byte lo + 256 * Z_of_byte hi) 32768); lia.
Qed.

(** Reading back the two bytes written for an int16 gives the int16. *)
Lemma int16_of_bytes_of_int16 (v : Z) :
  int16 v ->
  int16_of_bytes (byte_of_Z ((v mod 65536) mod 256))
                 (byte_of_Z ((v mod 65536) / 256)) = v.
Proof.
  unfold int16, int16_of_bytes. intro Hv.
  rewrite !Z_of_byte_of_Z by (Z.to_euclidean_division_equations; lia).
  destruct (Z.geb_spec ((v mod 65536) mod 256 + 256 * ((v mod 65536) / 256)) 32768);
    Z.to_euclidean_division_equations; lia.
Qed.

Lemma Int16Array_of_Uint8Array_view (l : list Z) :
  Forall int16 l ->
  Int16Array_of_buffer (Uint8Array_of_Int16Array l) = Some l.
Proof.
  induction 1 as [|v l Hv _ IH];
    cbn [Uint8Array_of_Int16Array Int16Array_of_buffer]; [reflexivity|].
  rewrite IH. cbv zeta. now rewrite int16_of_bytes_of_int16.
Qed.

Lemma Uint8Array_of_Int16Array_length (l : list Z) :
  List.length (Uint8Array_of_Int16Array l) = (2 * List.length l)%nat.
Proof.
  induction l as [|v l IH]; cbn [Uint8Array_of_Int16Array List.length];
    [reflexivity|]. rewrite IH. lia.
Qed.

Lemma list_ind2 (A : Type) (P : list A -> Prop) :
  P [] -> (forall a, P [a]) -> (forall a b l, P l -> P (a :: b :: l)) ->
  forall l, P l.
Proof.
  intros H0 H1 H2.
  assert (H : forall l, P l /\ forall a, P (a :: l)).
  { induction l as [|x l [IH0 IH1]]; split; auto. }
  intro l. apply H.
Qed.

(** The [Int16Array] constructor throws exactly on an odd byte length. *)
Lemma Int16Array_of_buffer_None (bytes : list byte) :
  Int16Array_of_buffer bytes = None <-> Nat.odd (List.length bytes) = true.
Proof.
  induction bytes as [|a|a b l IH] using list_ind2.
  - cbn. split; discriminate.
  - cbn. split; reflexivity.
  - cbn [Int16Array_of_buffer].
    change (Nat.odd (List.length (a :: b :: l))) with (Nat.odd (List.length l)).
    rewrite <- IH.
    destruct (Int16Array_of_buffer l); split; congruence.
Qed.

(** When it succeeds there is one element per pair of bytes. *)
Lemma Int16Array_of_buffer_length (bytes : list byte) (l : list Z) :
  Int16Array_of_buffer bytes = Some l ->
  List.length bytes = (2 * List.length l)%nat.
Proof.
  revert l. induction bytes as [|a|a b bytes IH] using list_ind2; intro l.
  - cbn. intros [= <-]. reflexivity.
  - cbn. discriminate.
  - cbn [Int16Array_of_buffer].
    destruct (Int16Array_of_buffer bytes) as [r|]; [|discriminate].
    intros [= <-]. cbn [List.length]. rewrite (IH r eq_refl). lia.
Qed.

Lemma Int16Array_of_buffer_int16 (bytes : list byte) (l : list Z) :
  Int16Array_of_buffer bytes = Some l -> Forall int16 l.
Proof.
  revert l. induction bytes as [|a|a b bytes IH] using list_ind2; intro l.
  - cbn. intros [= <-]. constructor.
  - cbn. discriminate.
  - cbn [Int16Array_of_buffer].
    destruct (Int16Array_of_buffer bytes) as [r|]; [|discriminate].
    intros [= <-]. constructor; [apply int16_of_bytes_range|now apply IH].
Qed.

Local Open Scope Q_scope.

Lemma truncate_proper (x y : Q) : x == y -> truncate x = truncate y.
Proof.
  destruct x as [a b], y as [c d]. unfold Qeq, truncate. cbn [Qnum Qden].
  intro E.
  rewrite <- (Z.quot_mul_cancel_r a (Z.pos b) (Z.pos d)) by lia.
  rewrite E, (Z.mul_comm (Z.pos b)).
  now rewrite (Z.quot_mul_cancel_r c (Z.pos d) (Z.pos b)) by lia.
Qed.

Lemma truncate_nonneg (x : Q) :
  0 <= x -> inject_Z (truncate x) <= x /\ x < inject_Z (truncate x) + 1.
Proof.
  destruct x as [n d]. unfold Qle, Qlt, truncate. cbn. intro H.
  Z.to_euclidean_division_equations. nia.
Qed.

Lemma truncate_nonpos (x : Q) :
  x <= 0 -> x <= inject_Z (truncate x) /\ inject_Z (truncate x) - 1 < x.
Proof.
  destruct x as [n d]. unfold Qle, Qlt, truncate. cbn. intro H.
  Z.to_euclidean_division_equations. nia.
Qed.

Lemma inject_Z_le_inv (a b : Z) : inject_Z a <= inject_Z b -> (a <= b)%Z.
Proof. now rewrite <- Zle_Qle. Qed.

Lemma inject_Z_lt_inv (a b : Z) : inject_Z a < inject_Z b -> (a < b)%Z.
Proof. now rewrite <- Zlt_Qlt. Qed.

(** Truncation keeps a number of the int16 range in the range. *)
Lemma truncate_int16 (x : Q) :
  -32768 <= x <= 32767 -> int16 (truncate x).
Proof.
  intros [Hlo Hhi]. unfold int16.
  destruct (Qlt_le_dec x 0) as [Hneg|Hpos].
  - destruct (truncate_nonpos x (Qlt_le_weak _ _ Hneg)) as [H1 H2].
    split.
    + apply inject_Z_le_inv. change (inject_Z (-32768)) with (-32768). lra.
    + assert (truncate x < 1)%Z; [|lia].
      apply inject_Z_lt_inv. change (inject_Z 1) with 1. lra.
  - destruct (truncate_nonneg x Hpos) as [H1 H2].
    split.
    + assert (-1 < truncate x)%Z; [|lia].
      apply inject_Z_lt_inv. change (inject_Z (-1)) with (-1). lra.
    + apply inject_Z_le_inv. change (inject_Z 32767) with 32767. lra.
Qed.

(** [ToInt16] never leaves the range, and does not wrap inside it. *)
Lemma ToInt16_range (x : Q) : int16 (ToInt16 x).
Proof.
  unfold int16, ToInt16. cbv zeta.
  destruct (Z.geb_spec (truncate x mod 65536) 32768);
    Z.to_euclidean_division_equations; lia.
Qed.

Lemma ToInt16_no_wrap (x : Q) : int16 (truncate x) -> ToInt16 x = truncate x.
Proof.
  unfold int16, ToInt16. cbv zeta. intro H.
  destruct (Z.geb_spec (truncate x mod 65536) 32768);
    Z.to_euclidean_division_equations; lia.
Qed.

Lemma Qltb_true (a b : Q) : Qltb a b = true <-> a < b.
Proof.
  unfold Qltb. rewrite negb_true_iff, <- not_true_iff_false, Qle_bool_iff.
  split; [apply Qnot_le_lt | apply Qlt_not_le].
Qed.

Lemma Qltb_false (a b : Q) : Qltb a b = false <-> b <= a.
Proof.
  unfold Qltb. rewrite negb_false_iff, Qle_bool_iff. reflexivity.
Qed.

Lemma Qltb_spec (a b : Q) : reflect (a < b) (Qltb a b).
Proof.
  destruct (Qltb a b) eqn:E; constructor.
  - now apply Qltb_true.
  - apply Qltb_false in E. now apply Qle_not_lt.
Qed.

Lemma Math_max_spec (a b : Q) :
  (a <= b /\ Math_max a b = b) \/ (b < a /\ Math_max a b = a).
Proof.
  unfold Math_max. destruct (Qle_bool a b) eqn:E.
  - left. split; [now apply Qle_bool_iff|reflexivity].
  - right. split; [|reflexivity].
    apply Qnot_le_lt. rewrite <- Qle_bool_iff. congruence.
Qed.

Lemma Math_min_spec (a b : Q) :
  (a <= b /\ Math_min a b = a) \/ (b < a /\ Math_min a b = b).
Proof.
  unfold Math_min. destruct (Qle_bool a b) eqn:E.
  - left. split; [now apply Qle_bool_iff|reflexivity].
  - right. split; [|reflexivity].
    apply Qnot_le_lt. rewrite <- Qle_bool_iff. congruence.
Qed.

Lemma clamp_range (x : Q) : -1 <= spec_clamp x <= 1.
Proof.
  unfold spec_clamp.
  destruct (Qltb_spec x (-1)); [lra|].
  destruct (Qltb_spec 1 x); lra.
Qed.

Lemma clamp_inside (x : Q) : -1 <= x <= 1 -> spec_clamp x = x.
Proof.
  intro H. unfold spec_clamp.
  destruct (Qltb_spec x (-1)); [lra|].
  destruct (Qltb_spec 1 x); [lra|reflexivity].
Qed.

(** The nested [Math.max]/[Math.min] of the source is the clamp. *)
Lemma Math_clamp (x : Q) : Math_max (-1) (Math_min 1 x) == spec_clamp x.
Proof.
  unfold spec_clamp.
  destruct (Math_min_spec 1 x) as [[H1 ->]|[H1 ->]].
  - destruct (Math_max_spec (-1) 1) as [[H2 ->]|[H2 _]]; [|lra].
    destruct (Qltb_spec x (-1)); [lra|].
    destruct (Qltb_spec 1 x); lra.
  - destruct (Math_max_spec (-1) x) as [[H2 ->]|[H2 ->]].
    + destruct (Qltb_spec x (-1)); [lra|].
      destruct (Qltb_spec 1 x); lra.
    + destruct (Qltb_spec x (-1)); lra.
Qed.

Lemma scale_proper (s t : Q) : s == t -> spec_scale s == spec_scale t.
Proof.
  intro E. unfold spec_scale.
  destruct (Qltb_spec s 0), (Qltb_spec t 0); lra.
Qed.

Lemma scale_range (s : Q) : -1 <= s <= 1 -> -32768 <= spec_scale s <= 32767.
Proof.
  intro H. unfold spec_scale. destruct (Qltb_spec s 0); lra.
Qed.

(** The stored element is the spec's truncated, scaled, clamped sample;
    the reduction modulo 2^16 of the store never takes effect. *)
Lemma pcm_sample_spec (x : Q) : pcm_sample x = spec_sample x.
Proof.
  unfold pcm_sample, spec_sample. cbv zeta.
  change (if Qltb (Math_max (-1) (Math_min 1 x)) 0
          then Math_max (-1) (Math_min 1 x) * 32768
          else Math_max (-1) (Math_min 1 x) * 32767)
    with (spec_scale (Math_max (-1) (Math_min 1 x))).
  pose proof (scale_proper _ _ (Math_clamp x)) as E.
  rewrite ToInt16_no_wrap.
  - now apply truncate_proper.
  - rewrite (truncate_proper _ _ E).
    apply truncate_int16, scale_range, clamp_range.
Qed.

Lemma spec_sample_int16 (x : Q) : int16 (spec_sample x).
Proof. apply truncate_int16, scale_range, clamp_range. Qed.

Lemma Qmake_32768 (t : Z) : t # 32768 == inject_Z t * (1 # 32768).
Proof. unfold Qeq. cbn. lia. Qed.

(** One quantisation step below zero, up to two at and above it: the
    encoder scales a non-negative sample by 32767, the decoder divides by
    32768. *)
Lemma quantization_error (x : Q) :
  -1 <= x <= 1 ->
  Qabs ((spec_sample x # 32768) - x) <= 1 # 16384 /\
  (x <= 0 -> Qabs ((spec_sample x # 32768) - x) <= 1 # 32768).
Proof.
  intro Hx. unfold spec_sample. rewrite (clamp_inside x Hx).
  rewrite Qmake_32768. unfold spec_scale.
  destruct (Qltb_spec x 0) as [Hneg|Hpos].
  - destruct (truncate_nonpos (x * 32768)) as [H1 H2]; [lra|].
    set (t := inject_Z (truncate (x * 32768))) in *. clearbody t.
    split; [|intros _]; apply Qabs_Qle_condition; lra.
  - apply Qnot_lt_le in Hpos.
    destruct (truncate_nonneg (x * 32767)) as [H1 H2]; [lra|].
    set (t := inject_Z (truncate (x * 32767))) in *. clearbody t.
    split; [|intros H0]; apply Qabs_Qle_condition; lra.
Qed.

Lemma pack_le16_view (v : Z) :
  [byte_of_Z ((v mod 65536) mod 256); byte_of_Z ((v mod 65536) / 256)]
  = pack_le16 v.
Proof.
  unfold pack_le16. f_equal; [|f_equal]; f_equal;
    Z.to_euclidean_division_equations; lia.
Qed.

Lemma Uint8Array_of_Int16Array_pack (l : list Z) :
  Uint8Array_of_Int16Array l = flat_map pack_le16 l.
Proof.
  induction l as [|v l IH]; cbn [Uint8Array_of_Int16Array flat_map];
    [reflexivity|].
  cbv zeta. rewrite IH, <- pack_le16_view. reflexivity.
Qed.

Lemma createPcmBlob_bytes (samples : Float32Array) :
  Uint8Array_of_Int16Array (map pcm_sample samples) = spec_samplesToWire samples.
Proof.
  unfold spec_samplesToWire. rewrite Uint8Array_of_Int16Array_pack.
  induction samples as [|x l IH]; cbn [map flat_map]; [reflexivity|].
  now rewrite IH, pcm_sample_spec.
Qed.

Lemma pcm_samples_int16 (samples : Float32Array) :
  Forall int16 (map pcm_sample samples).
Proof.
  apply Forall_map, Forall_forall. intros x _. apply ToInt16_range.
Qed.

(** What [pcmToAudioBuffer] returns on a chunk of whole samples. *)
Lemma pcmToAudioBuffer_samples (base64 : string) (ctx : AudioContext)
    (bytes : list byte) (l : list Z) :
  decode base64 = Some bytes -> Int16Array_of_buffer bytes = Some l ->
  l <> [] ->
  pcmToAudioBuffer base64 ctx 24000 =
    Some (mkAudioBuffer 1 (List.length l) 24000 (map (fun v => v # 32768) l)).
Proof.
  intros Hd Hi Hl. unfold pcmToAudioBuffer. rewrite Hd, Hi.
  unfold createBuffer. destruct l as [|v l]; [congruence|]. reflexivity.
Qed.

Lemma Int16Array_of_buffer_even (bytes : list byte) :
  Nat.odd (List.length bytes) = false ->
  exists l, Int16Array_of_buffer bytes = Some l.
Proof.
  intro H. destruct (Int16Array_of_buffer bytes) as [l|] eqn:E; [now exists l|].
  apply Int16Array_of_buffer_None in E. congruence.
Qed.

(** The elements of the view, by position. *)
Lemma Int16Array_of_buffer_nth (bytes : list byte) (l : list Z) (i : nat) :
  Int16Array_of_buffer bytes = Some l -> (i < List.length l)%nat ->
  nth i l 0%Z =
    int16_of_bytes (nth (2 * i) bytes x00) (nth (2 * i + 1) bytes x00).
Proof.
  revert l i. induction bytes as [|a|a b bytes IH] using list_ind2; intros l i.
  - cbn. intros [= <-]. cbn. lia.
  - cbn. discriminate.
  - cbn [Int16Array_of_buffer].
    destruct (Int16Array_of_buffer bytes) as [r|]; [|discriminate].
    intros [= <-] Hi. destruct i as [|i]; [reflexivity|].
    cbn [List.length] in Hi.
    replace (2 * S i)%nat with (S (S (2 * i))) by lia.
    replace (S (S (2 * i)) + 1)%nat with (S (S (2 * i + 1))) by lia.
    cbn [nth]. apply (IH r i eq_refl). lia.
Qed.

End CodecFacts.

(* ------------------------------------------------------------------ *)
(** * The playback scheduler *)

Section SchedulerFacts.
Import Platform GeminiService LiveVoiceInterface.
Local Open Scope Q_scope.

Lemma onAudio_scheduled (c : Component) (ctx : AudioContext) (b : string)
    (buf : AudioBuffer) :
  outputContextRef c = Some ctx ->
  pcmToAudioBuffer b ctx 24000 = Some buf ->
  onAudio b c =
    let startTime := Math_max (currentTime ctx) (nextStartTimeRef c) in
    set_playback (startTime + duration buf)
      (audioQueueRef c ++ [List.length (nodes c)])
      (nodes c ++ [mkSourceNode (List.length (nodes c)) buf startTime false]) c.
Proof. intros Hc Hb. unfold onAudio. now rewrite Hc, Hb. Qed.

Lemma onAudio_dropped (c : Component) (ctx : AudioContext) (b : string) :
  outputContextRef c = Some ctx ->
  pcmToAudioBuffer b ctx 24000 = None ->
  onAudio b c = set_console (console c ++ ["Audio Decode Error"%string]) c.
Proof. intros Hc Hb. unfold onAudio. now rewrite Hc, Hb. Qed.

Lemma Math_max_ge_r (a b : Q) : b <= Math_max a b.
Proof. destruct (Math_max_spec a b) as [[H ->]|[H ->]]; lra. Qed.

Lemma chained_no_overlap (l : list SourceNode) (cursor : Q) :
  chained l cursor -> no_overlap l.
Proof.
  induction l as [|u [|v l] IH]; cbn [chained no_overlap]; auto.
  intros [H1 H2]. split; [exact H1|]. apply IH, H2.
Qed.

Lemma chained_snoc (l : list SourceNode) (cursor : Q) (v : SourceNode) :
  chained l cursor -> cursor <= when v ->
  chained (l ++ [v]) (when v + duration (buffer v)).
Proof.
  induction l as [|u [|w l] IH]; intros Hl Hv.
  - cbn. lra.
  - cbn in *. split; lra.
  - destruct Hl as [H1 H2]. change ((u :: w :: l) ++ [v]) with (u :: w :: (l ++ [v])).
    split; [exact H1|]. apply IH; assumption.
Qed.

Lemma abutting_back_to_back (l : list SourceNode) (cursor : Q) :
  abutting l cursor -> back_to_back l.
Proof.
  induction l as [|u [|v l] IH]; cbn [abutting back_to_back]; auto.
  intros [H1 H2]. split; [exact H1|]. apply IH, H2.
Qed.

Lemma abutting_snoc (l : list SourceNode) (cursor : Q) (v : SourceNode) :
  abutting l cursor -> when v == cursor ->
  abutting (l ++ [v]) (when v + duration (buffer v)).
Proof.
  induction l as [|u [|w l] IH]; intros Hl Hv.
  - cbn. lra.
  - cbn in *. split; lra.
  - destruct Hl as [H1 H2]. change ((u :: w :: l) ++ [v]) with (u :: w :: (l ++ [v])).
    split; [exact H1|]. apply IH; assumption.
Qed.

Lemma skipn_snoc (A : Type) (n : nat) (l : list A) (x : A) :
  (n <= List.length l)%nat -> skipn n (l ++ [x]) = skipn n l ++ [x].
Proof.
  intro H. rewrite skipn_app.
  replace (n - List.length l)%nat with 0%nat by lia. reflexivity.
Qed.

Lemma chain_inv_step (n : nat) (c : Component) (e : Event) :
  is_interruption e = false -> chain_inv n c -> chain_inv n (step c e).
Proof.
  intros He [Hn Hc]. destruct e as [b| |node|frame|t]; cbn [step].
  - unfold onAudio.
    destruct (outputContextRef c) as [ctx|] eqn:Ec; [|now split].
    destruct (pcmToAudioBuffer b ctx 24000) as [buf|] eqn:Eb; [|now split].
    split; cbn [set_playback nodes nextStartTimeRef].
    + rewrite length_app. lia.
    + rewrite skipn_snoc by exact Hn.
      apply (chained_snoc _ _ (mkSourceNode _ buf _ false) Hc).
      apply Math_max_ge_r.
  - discriminate.
  - now split.
  - unfold onaudioprocess. destruct (sendAudioRef c); now split.
  - unfold tick. destruct (outputContextRef c); now split.
Qed.

Lemma chain_inv_run (n : nat) (es : list Event) (c : Component) :
  no_interruption es -> chain_inv n c -> chain_inv n (run c es).
Proof.
  unfold no_interruption, run. revert c.
  induction es as [|e es IH]; intros c Hes Hc; [exact Hc|].
  cbn [forallb] in Hes. apply andb_true_iff in Hes as [He Hes].
  apply negb_true_iff in He.
  cbn [fold_left]. apply IH; [exact Hes|]. now apply chain_inv_step.
Qed.

Lemma abut_inv_step (n : nat) (c : Component) (e : Event) :
  is_interruption e = false -> pace_ok c e ->
  abut_inv n c -> abut_inv n (step c e).
Proof.
  intros He Hp [Hn Hc]. destruct e as [b| |node|frame|t]; cbn [step].
  - unfold onAudio. unfold pace_ok in Hp.
    destruct (outputContextRef c) as [ctx|] eqn:Ec; [|now split].
    destruct (pcmToAudioBuffer b ctx 24000) as [buf|] eqn:Eb; [|now split].
    split; cbn [set_playback nodes nextStartTimeRef].
    + rewrite length_app. lia.
    + rewrite skipn_snoc by exact Hn.
      apply (abutting_snoc _ _ (mkSourceNode _ buf _ false) Hc).
      cbn [when].
      destruct (Math_max_spec (currentTime ctx) (nextStartTimeRef c))
        as [[_ ->]|[H _]]; lra.
  - discriminate.
  - now split.
  - unfold onaudioprocess. destruct (sendAudioRef c); now split.
  - unfold tick. destruct (outputContextRef c); now split.
Qed.

Lemma paced_cons (c : Component) (e : Event) (es : list Event) :
  paced c (e :: es) <-> pace_ok c e /\ paced (step c e) es.
Proof. reflexivity. Qed.

Lemma abut_inv_run (n : nat) (es : list Event) (c : Component) :
  no_interruption es -> paced c es -> abut_inv n c -> abut_inv n (run c es).
Proof.
  unfold no_interruption, run. revert c.
  induction es as [|e es IH]; intros c Hes Hp Hc; [exact Hc|].
  cbn [forallb] in Hes. apply andb_true_iff in Hes as [He Hes].
  apply negb_true_iff in He. apply paced_cons in Hp as [Hp1 Hp2].
  cbn [fold_left]. apply IH; [exact Hes|exact Hp2|].
  now apply abut_inv_step.
Qed.

Lemma chain_inv_init (c : Component) : chain_inv (List.length (nodes c)) c.
Proof. split; [lia|]. now rewrite skipn_all. Qed.

Lemma abut_inv_init (c : Component) : abut_inv (List.length (nodes c)) c.
Proof. split; [lia|]. now rewrite skipn_all. Qed.

End SchedulerFacts.

(* ------------------------------------------------------------------ *)
(** * The codec claims *)

Section CodecClaims.
Import Platform GeminiService LiveVoiceInterface Examples.
Local Open Scope Q_scope.

(** C10.  The base64 transport codec round-trips: for every byte array
    [b], [decode (encode b)] returns [b]; so the byte length of a chunk,
    and with it the number of 16-bit samples an [Int16Array] view finds in
    it, is the same before and after the transport encoding. *)
Theorem decode_encode_roundtrip (b : Uint8Array) :
  decode (encode b) = Some b /\
  option_map (@List.length byte) (decode (encode b)) = Some (List.length b) /\
  option_map Int16Array_of_buffer (decode (encode b))
    = Some (Int16Array_of_buffer b).
Proof.
  rewrite decode_encode_bytes. cbn [option_map]. repeat split.
Qed.

(** C4.  [createPcmBlob] is a total function whose payload is, for every
    input, the base64 text of the little-endian packing of
    [truncate (spec_scale (spec_clamp x))] for each sample [x] in order
    (clamp to [-1, 1], scale by 32768 below zero and by 32767 otherwise,
    truncate);
    each of these integers is a 16-bit signed integer, so the store into
    the [Int16Array] never wraps; the payload decodes to two bytes per
    sample which read back as those integers; the empty input gives the
    empty payload. *)
Theorem createPcmBlob_spec (samples : Float32Array) :
  data (createPcmBlob samples) = encode (spec_samplesToWire samples) /\
  map pcm_sample samples = map spec_sample samples /\
  Forall int16 (map spec_sample samples) /\
  decode (data (createPcmBlob samples)) = Some (spec_samplesToWire samples) /\
  Int16Array_of_buffer (spec_samplesToWire samples)
    = Some (map spec_sample samples) /\
  data (createPcmBlob []) = ""%string.
Proof.
  assert (E : map pcm_sample samples = map spec_sample samples)
    by (apply map_ext, pcm_sample_spec).
  assert (D : data (createPcmBlob samples) = encode (spec_samplesToWire samples)).
  { unfold createPcmBlob. cbn [data]. now rewrite createPcmBlob_bytes. }
  repeat split.
  - exact D.
  - exact E.
  - rewrite <- E. apply pcm_samples_int16.
  - rewrite D. apply decode_encode_bytes.
  - rewrite <- createPcmBlob_bytes, <- E.
    apply Int16Array_of_Uint8Array_view, pcm_samples_int16.
Qed.

(** What the round trip through the wire returns. *)
Lemma pcm_roundtrip (samples : Float32Array) (ctx : AudioContext) :
  samples <> [] ->
  pcmToAudioBuffer (data (createPcmBlob samples)) ctx 24000 =
    Some (mkAudioBuffer 1 (List.length samples) 24000
            (map (fun x => spec_sample x # 32768) samples)).
Proof.
  intro Hne.
  rewrite (pcmToAudioBuffer_samples _ ctx
             (Uint8Array_of_Int16Array (map pcm_sample samples))
             (map pcm_sample samples)).
  - rewrite length_map, map_map. do 2 f_equal.
    apply map_ext. intro x. now rewrite pcm_sample_spec.
  - apply decode_encode_bytes.
  - apply Int16Array_of_Uint8Array_view, pcm_samples_int16.
  - destruct samples; [congruence|discriminate].
Qed.

(** C3, as stated, fails at the one-sample sequence [65535/65536]
    (a float32): it is encoded as 32766 and decoded as 32766/32768, which
    is 3/65536 away, more than 1/32768. *)
Lemma quantization_bound_counterexample :
  (-1 <= 65535 # 65536 <= 1) /\
  option_map channelData
    (pcmToAudioBuffer (data (createPcmBlob [65535 # 65536])) ctx24 24000)
    = Some [32766 # 32768] /\
  ~ Qabs ((32766 # 32768) - (65535 # 65536)) <= 1 # 32768.
Proof.
  split; [|split].
  - split; discriminate.
  - vm_compute. reflexivity.
  - vm_compute. intro H. apply H. reflexivity.
Qed.

(** C3, amended.  For every sequence [s] of samples in [-1, 1] and every
    index [i] of it, encoding then decoding succeeds and the decoded sample
    is within 1/16384 (two quantisation steps) of [s[i]], and within
    1/32768 when [s[i]] is not positive. *)
Theorem quantization_bound (s : Float32Array) (ctx : AudioContext) (i : nat) :
  Forall (fun x => -1 <= x <= 1) s ->
  (i < List.length s)%nat ->
  exists buffer,
    pcmToAudioBuffer (data (createPcmBlob s)) ctx 24000 = Some buffer /\
    List.length (channelData buffer) = List.length s /\
    Qabs (nth i (channelData buffer) 0 - nth i s 0) <= 1 # 16384 /\
    (nth i s 0 <= 0 ->
     Qabs (nth i (channelData buffer) 0 - nth i s 0) <= 1 # 32768).
Proof.
  intros Hs Hi.
  assert (Hne : s <> []) by (destruct s; [cbn in Hi; lia|discriminate]).
  eexists. split; [apply (pcm_roundtrip s ctx Hne)|].
  cbn [channelData]. split; [apply length_map|].
  rewrite (nth_indep _ 0 (spec_sample 0 # 32768)) by (rewrite length_map; exact Hi).
  rewrite (map_nth (fun x => spec_sample x # 32768)).
  apply quantization_error.
  rewrite Forall_forall in Hs. apply Hs, nth_In, Hi.
Qed.

Lemma quantization_bound_witness :
  Forall (fun x => -1 <= x <= 1) [65535 # 65536; -1 # 3] /\
  (1 < List.length [65535 # 65536; -1 # 3])%nat /\
  exists buffer,
    pcmToAudioBuffer (data (createPcmBlob [65535 # 65536; -1 # 3])) ctx24 24000
      = Some buffer /\
    List.length (channelData buffer) = 2%nat /\
    Qabs (nth 1 (channelData buffer) 0 - nth 1 [65535 # 65536; -1 # 3] 0)
      <= 1 # 16384 /\
    (nth 1 [65535 # 65536; -1 # 3] 0 <= 0 ->
     Qabs (nth 1 (channelData buffer) 0 - nth 1 [65535 # 65536; -1 # 3] 0)
       <= 1 # 32768).
Proof.
  assert (H1 : Forall (fun x => -1 <= x <= 1) [65535 # 65536; -1 # 3])
    by (repeat constructor; discriminate).
  assert (H2 : (1 < List.length [65535 # 65536; -1 # 3])%nat)
    by (cbn; lia).
  split; [exact H1|]. split; [exact H2|].
  exact (quantization_bound [65535 # 65536; -1 # 3] ctx24 1 H1 H2).
Defined.

(** C5, as stated, fails at the empty chunk: its byte length, zero, is
    even, yet [createBuffer] rejects a buffer of zero sample-frames and
    [pcmToAudioBuffer] throws. *)
Lemma pcmToAudioBuffer_counterexample :
  decode "" = Some [] /\
  ~ (pcmToAudioBuffer "" ctx24 24000 = None
     <-> Nat.odd (List.length (@nil byte)) = true).
Proof.
  split; [reflexivity|].
  intros [H _]. cbn in H. specialize (H eq_refl). discriminate.
Qed.

(** C5, amended.  On a chunk of bytes, [pcmToAudioBuffer] fails if and
    only if the byte length is odd or zero; on every other chunk it
    succeeds and returns a mono 24 kHz buffer with one sample per pair of
    bytes, the pair read as a 16-bit signed little-endian integer and
    divided by 32768. *)
Theorem pcmToAudioBuffer_spec (base64 : string) (ctx : AudioContext)
    (bytes : list byte) :
  decode base64 = Some bytes ->
  (pcmToAudioBuffer base64 ctx 24000 = None
   <-> Nat.odd (List.length bytes) = true \/ List.length bytes = 0%nat) /\
  (Nat.odd (List.length bytes) = false -> List.length bytes <> 0%nat ->
   exists buffer,
     pcmToAudioBuffer base64 ctx 24000 = Some buffer /\
     buf_sampleRate buffer = 24000%Z /\
     buf_length buffer = List.length (channelData buffer) /\
     (2 * List.length (channelData buffer))%nat = List.length bytes /\
     forall i, (i < List.length (channelData buffer))%nat ->
       nth i (channelData buffer) 0 =
         int16_of_bytes (nth (2 * i) bytes x00) (nth (2 * i + 1) bytes x00)
         # 32768).
Proof.
  intro Hd.
  assert (Hok : Nat.odd (List.length bytes) = false ->
                List.length bytes <> 0%nat ->
                exists l, Int16Array_of_buffer bytes = Some l /\ l <> [] /\
                  pcmToAudioBuffer base64 ctx 24000 =
                    Some (mkAudioBuffer 1 (List.length l) 24000
                            (map (fun v => v # 32768) l))).
  { intros Hev Hne.
    destruct (Int16Array_of_buffer_even bytes Hev) as [l Hl].
    assert (Hl' : l <> []).
    { intros ->. apply Int16Array_of_buffer_length in Hl. cbn in Hl. lia. }
    exists l. repeat split; auto.
    now apply (pcmToAudioBuffer_samples base64 ctx bytes l). }
  split.
  - split.
    + intro Hnone.
      destruct (Nat.odd (List.length bytes)) eqn:Hodd; [now left|right].
      destruct (Nat.eq_dec (List.length bytes) 0) as [E|E]; [exact E|].
      destruct (Hok eq_refl E) as (l & _ & _ & Hsome). congruence.
    + intros [Hodd|Hzero]; unfold pcmToAudioBuffer; rewrite Hd.
      * apply Int16Array_of_buffer_None in Hodd. now rewrite Hodd.
      * destruct bytes; [reflexivity|discriminate].
  - intros Hev Hne. destruct (Hok Hev Hne) as (l & Hl & _ & Hsome).
    eexists. split; [exact Hsome|]. cbn [buf_sampleRate buf_length channelData].
    rewrite length_map. repeat split.
    + symmetry. now apply Int16Array_of_buffer_length.
    + intros i Hi.
      rewrite (nth_indep _ 0 (0%Z # 32768)) by (now rewrite length_map).
      rewrite (map_nth (fun v => v # 32768)).
      now rewrite (Int16Array_of_buffer_nth bytes l i Hl Hi).
Qed.

Lemma pcmToAudioBuffer_spec_witness :
  decode "AID/fw==" = Some [x00; x80; xff; x7f] /\
  (pcmToAudioBuffer "AID/fw==" ctx24 24000 = None
   <-> Nat.odd 4 = true \/ 4%nat = 0%nat) /\
  option_map channelData (pcmToAudioBuffer "AID/fw==" ctx24 24000)
    = Some [-32768 # 32768; 32767 # 32768].
Proof.
  assert (Hd : decode "AID/fw==" = Some [x00; x80; xff; x7f])
    by (vm_compute; reflexivity).
  split; [exact Hd|]. split.
  - exact (proj1 (pcmToAudioBuffer_spec "AID/fw==" ctx24 _ Hd)).
  - vm_compute. reflexivity.
Defined.

End CodecClaims.

(* ------------------------------------------------------------------ *)
(** * The scheduler and capture claims *)

Section SessionClaims.
Import Platform GeminiService LiveVoiceInterface Examples.
Local Open Scope Q_scope.

(** C1.  Whatever reaches the component short of an interruption (inbound
    chunks, good or malformed, clock readings, ended units, captured
    frames), the units scheduled meanwhile do not overlap: each starts no
    earlier than the one before it ends.  The start of the next unit is
    [Math.max] of the output clock and the cursor, and the cursor then
    moves to that start plus the duration of the unit. *)
Theorem no_overlap_invariant (c : Component) (es : list Event) :
  no_interruption es ->
  no_overlap (scheduled_since (List.length (nodes c)) (run c es)) /\
  forall base64Audio ctx buf,
    outputContextRef (run c es) = Some ctx ->
    pcmToAudioBuffer base64Audio ctx 24000 = Some buf ->
    let c' := onAudio base64Audio (run c es) in
    let startTime := Math_max (currentTime ctx) (nextStartTimeRef (run c es)) in
    nodes c' =
      nodes (run c es)
      ++ [mkSourceNode (List.length (nodes (run c es))) buf startTime false] /\
    nextStartTimeRef c' = startTime + duration buf.
Proof.
  intro Hes. split.
  - destruct (chain_inv_run _ es c Hes (chain_inv_init c)) as [_ H].
    exact (chained_no_overlap _ _ H).
  - intros b ctx buf Hc Hb. cbv zeta.
    rewrite (onAudio_scheduled _ ctx b buf Hc Hb). split; reflexivity.
Qed.

Lemma no_overlap_invariant_witness :
  no_interruption mixed_run /\
  no_overlap (scheduled_since (List.length (nodes busy0)) (run busy0 mixed_run)).
Proof.
  assert (H : no_interruption mixed_run) by reflexivity.
  split; [exact H|].
  exact (proj1 (no_overlap_invariant busy0 mixed_run H)).
Defined.

(** C2.  While every chunk is handed over before the output clock has
    passed the cursor, consecutive units abut exactly; and two chunks of
    1000 samples each, the second handed over while the first has not
    played out, give two units at 24 kHz, the second starting 1000/24000 s
    after the first. *)
Theorem gapless_under_pace :
  (forall (c : Component) (es : list Event),
     no_interruption es -> paced c es ->
     back_to_back (scheduled_since (List.length (nodes c)) (run c es))) /\
  (forall (c : Component) (ctx : AudioContext) (b1 b2 : string)
          (bytes1 bytes2 : list byte) (t : Q),
     outputContextRef c = Some ctx ->
     decode b1 = Some bytes1 -> List.length bytes1 = 2000%nat ->
     decode b2 = Some bytes2 -> List.length bytes2 = 2000%nat ->
     t <= Math_max (currentTime ctx) (nextStartTimeRef c) + (1000 # 24000) ->
     exists u1 u2,
       scheduled_since (List.length (nodes c))
         (run c [InboundAudio b1; OutputClock t; InboundAudio b2]) = [u1; u2] /\
       buf_length (buffer u1) = 1000%nat /\
       buf_sampleRate (buffer u1) = 24000%Z /\
       buf_length (buffer u2) = 1000%nat /\
       when u2 == when u1 + (1000 # 24000)).
Proof.
  split.
  - intros c es Hes Hp.
    destruct (abut_inv_run _ es c Hes Hp (abut_inv_init c)) as [_ H].
    exact (abutting_back_to_back _ _ H).
  - intros c ctx b1 b2 bytes1 bytes2 t Hc Hd1 Hn1 Hd2 Hn2 Ht.
    assert (Hbuf : forall b bytes ctx',
              decode b = Some bytes -> List.length bytes = 2000%nat ->
              exists buf, pcmToAudioBuffer b ctx' 24000 = Some buf /\
                buf_length buf = 1000%nat /\ buf_sampleRate buf = 24000%Z).
    { intros b bytes ctx' Hd Hn.
      destruct (Int16Array_of_buffer_even bytes) as [l Hl];
        [rewrite Hn; reflexivity|].
      pose proof (Int16Array_of_buffer_length _ _ Hl) as Hlen.
      assert (Hl1000 : List.length l = 1000%nat) by lia.
      assert (Hne : l <> []) by (intros ->; cbn in Hl1000; lia).
      eexists. split; [apply (pcmToAudioBuffer_samples b ctx' bytes l Hd Hl Hne)|].
      cbn [buf_length buf_sampleRate]. split; [exact Hl1000|reflexivity]. }
    destruct (Hbuf b1 bytes1 ctx Hd1 Hn1) as (buf1 & Hb1 & Hl1 & Hr1).
    destruct (Hbuf b2 bytes2 (mkAudioContext (ctx_sampleRate ctx) t) Hd2 Hn2)
      as (buf2 & Hb2 & Hl2 & Hr2).
    assert (Hdur : duration buf1 = 1000 # 24000).
    { unfold duration. now rewrite Hl1, Hr1. }
    unfold run. cbn [fold_left step].
    rewrite (onAudio_scheduled c ctx b1 buf1 Hc Hb1). cbv zeta.
    set (start1 := Math_max (currentTime ctx) (nextStartTimeRef c)) in *.
    unfold tick. cbn [set_playback outputContextRef].
    rewrite Hc.
    erewrite onAudio_scheduled; [|reflexivity|exact Hb2].
    cbv zeta. cbn [set_outputContext set_playback nodes nextStartTimeRef currentTime].
    unfold scheduled_since. cbn [nodes set_playback].
    rewrite <- app_assoc, skipn_app, skipn_all, Nat.sub_diag. cbn [app skipn].
    do 2 eexists. split; [reflexivity|]. cbn [buffer when].
    repeat split; auto.
    rewrite Hdur in *.
    destruct (Math_max_spec t (start1 + (1000 # 24000))) as [[_ ->]|[H _]];
      [reflexivity|lra].
Qed.

Lemma gapless_under_pace_witness :
  (no_interruption paced_run /\ paced listening0 paced_run /\
   back_to_back
     (scheduled_since (List.length (nodes listening0))
        (run listening0 paced_run))) /\
  outputContextRef listening0 = Some ctx24 /\
  decode chunk1000 = Some (repeat x00 2000) /\
  (1 # 50) <= Math_max (currentTime ctx24) (nextStartTimeRef listening0)
              + (1000 # 24000) /\
  exists u1 u2,
    scheduled_since (List.length (nodes listening0))
      (run listening0
         [InboundAudio chunk1000; OutputClock (1 # 50); InboundAudio chunk1000])
      = [u1; u2] /\
    buf_length (buffer u1) = 1000%nat /\
    buf_sampleRate (buffer u1) = 24000%Z /\
    buf_length (buffer u2) = 1000%nat /\
    when u2 == when u1 + (1000 # 24000).
Proof.
  assert (Hi : no_interruption paced_run) by reflexivity.
  assert (Hp : paced listening0 paced_run)
    by (repeat split; vm_compute; discriminate).
  assert (Hd : decode chunk1000 = Some (repeat x00 2000))
    by (vm_compute; reflexivity).
  assert (Ht : (1 # 50) <= Math_max (currentTime ctx24)
                             (nextStartTimeRef listening0) + (1000 # 24000))
    by (vm_compute; discriminate).
  split.
  { split; [exact Hi|]. split; [exact Hp|].
    exact (proj1 gapless_under_pace listening0 paced_run Hi Hp). }
  split; [reflexivity|]. split; [exact Hd|]. split; [exact Ht|].
  exact (proj2 gapless_under_pace listening0 ctx24 chunk1000 chunk1000
           (repeat x00 2000) (repeat x00 2000) (1 # 50) eq_refl Hd
           (repeat_length x00 2000) Hd (repeat_length x00 2000) Ht).
Defined.

Lemma quiet_step (c : Component) (e : Event) :
  is_quiet e = true ->
  nextStartTimeRef (step c e) = nextStartTimeRef c /\
  nodes (step c e) = nodes c /\
  (audioQueueRef c = [] -> audioQueueRef (step c e) = []).
Proof.
  intro He. destruct e as [b| |node|frame|t]; try discriminate; cbn [step].
  - repeat split. cbn. now intros ->.
  - unfold onaudioprocess. destruct (sendAudioRef c); repeat split; auto.
  - unfold tick. destruct (outputContextRef c); repeat split; auto.
Qed.

Lemma quiet_run (es : list Event) (c : Component) :
  forallb is_quiet es = true ->
  nextStartTimeRef (run c es) = nextStartTimeRef c /\
  nodes (run c es) = nodes c /\
  (audioQueueRef c = [] -> audioQueueRef (run c es) = []).
Proof.
  unfold run. revert c.
  induction es as [|e es IH]; intros c Hes; [repeat split; auto|].
  cbn [forallb] in Hes. apply andb_true_iff in Hes as [He Hes].
  cbn [fold_left].
  destruct (IH (step c e) Hes) as (H1 & H2 & H3).
  destruct (quiet_step c e He) as (K1 & K2 & K3).
  rewrite H1, H2, K1, K2. repeat split. auto.
Qed.

(** C6.  With the output context open, an interruption leaves the queue
    of active units empty and the cursor at the reading of the output
    clock.  The chunk that arrives next (after any ended units, captured
    frames and clock readings), while the clock has not gone back, is
    scheduled to start at the reading of the clock at that moment,
    whatever the cursor was before the flush; it is the only active
    unit. *)
Theorem flush_on_interrupt (c : Component) (ctx : AudioContext) :
  outputContextRef c = Some ctx ->
  audioQueueRef (onInterrupted c) = [] /\
  nextStartTimeRef (onInterrupted c) = currentTime ctx /\
  forall (es : list Event) (ctx' : AudioContext) (base64Audio : string)
         (buf : AudioBuffer),
    forallb is_quiet es = true ->
    outputContextRef (run (onInterrupted c) es) = Some ctx' ->
    currentTime ctx <= currentTime ctx' ->
    pcmToAudioBuffer base64Audio ctx' 24000 = Some buf ->
    exists u,
      nodes (onAudio base64Audio (run (onInterrupted c) es))
        = nodes (onInterrupted c) ++ [u] /\
      audioQueueRef (onAudio base64Audio (run (onInterrupted c) es))
        = [node_id u] /\
      buffer u = buf /\ stopped u = false /\
      when u == currentTime ctx'.
Proof.
  intro Hc.
  assert (Hq : audioQueueRef (onInterrupted c) = [])
    by (unfold onInterrupted, stopAllPlayback; now rewrite Hc).
  assert (Hcur : nextStartTimeRef (onInterrupted c) = currentTime ctx)
    by (unfold onInterrupted, stopAllPlayback; now rewrite Hc).
  split; [exact Hq|]. split; [exact Hcur|].
  intros es ctx' b buf Hes Hc' Ht Hb.
  destruct (quiet_run es (onInterrupted c) Hes) as (H1 & H2 & H3).
  rewrite (onAudio_scheduled _ ctx' b buf Hc' Hb). cbv zeta.
  cbn [set_playback nodes audioQueueRef].
  rewrite H1, H2, (H3 Hq), Hcur.
  eexists. split; [reflexivity|]. cbn [node_id buffer stopped when app].
  repeat split.
  destruct (Math_max_spec (currentTime ctx') (currentTime ctx))
    as [[H ->]|[H ->]]; lra.
Qed.

Lemma flush_on_interrupt_witness :
  outputContextRef busy0 = Some (mkAudioContext 24000 1) /\
  audioQueueRef (onInterrupted busy0) = [] /\
  nextStartTimeRef (onInterrupted busy0) = 1 /\
  exists u,
    nodes (onAudio "AID/fw=="
             (run (onInterrupted busy0) [Ended 0; OutputClock (3 # 2)]))
      = nodes (onInterrupted busy0) ++ [u] /\
    when u == 3 # 2.
Proof.
  split; [reflexivity|].
  destruct (flush_on_interrupt busy0 (mkAudioContext 24000 1) eq_refl)
    as (Hq & Hcur & Hnext).
  split; [exact Hq|]. split; [exact Hcur|].
  destruct (Hnext [Ended 0%nat; OutputClock (3 # 2)]
              (mkAudioContext 24000 (3 # 2)) "AID/fw=="%string
              (mkAudioBuffer 1 2 24000 [-32768 # 32768; 32767 # 32768]))
    as (u & Hn & _ & _ & _ & Hw).
  - reflexivity.
  - reflexivity.
  - vm_compute. discriminate.
  - vm_compute. reflexivity.
  - exists u. split; [exact Hn|exact Hw].
Defined.

Lemma forget_console_step (c1 c2 : Component) (e : Event) :
  forget_console c1 = forget_console c2 ->
  forget_console (step c1 e) = forget_console (step c2 e).
Proof.
  destruct c1, c2. unfold forget_console, set_console. cbn.
  intros [= -> -> -> -> -> -> -> -> -> -> ->].
  destruct e as [b| |node|frame|t]; cbn [step].
  - unfold onAudio. cbn.
    destruct outputContextRef1 as [ctx|]; [|reflexivity].
    destruct (pcmToAudioBuffer b ctx 24000); reflexivity.
  - unfold onInterrupted, stopAllPlayback. cbn.
    destruct outputContextRef1; reflexivity.
  - reflexivity.
  - unfold onaudioprocess. cbn. destruct sendAudioRef1; reflexivity.
  - unfold tick. cbn. destruct outputContextRef1; reflexivity.
Qed.

Lemma forget_console_run (es : list Event) (c1 c2 : Component) :
  forget_console c1 = forget_console c2 ->
  forget_console (run c1 es) = forget_console (run c2 es).
Proof.
  unfold run. revert c1 c2.
  induction es as [|e es IH]; intros c1 c2 H; [exact H|].
  cbn [fold_left]. apply IH. now apply forget_console_step.
Qed.

Lemma forget_console_fields (a b : Component) :
  forget_console a = forget_console b ->
  nodes a = nodes b /\ audioQueueRef a = audioQueueRef b /\
  nextStartTimeRef a = nextStartTimeRef b /\
  outputContextRef a = outputContextRef b.
Proof.
  destruct a, b. unfold forget_console, set_console. cbn.
  intros [= -> -> -> -> -> -> -> -> -> -> ->]. repeat split.
Qed.

(** C7.  A chunk whose decoding throws is dropped: the call to [onAudio]
    changes neither the cursor, nor the queue, nor the source nodes, nor
    the session state, nor any handle; it only writes one line to the
    console; whatever happens afterwards happens as if the chunk had
    never arrived; and a well-formed chunk that arrives later is
    scheduled, as a new unit at [Math.max] of the clock and the cursor,
    exactly where it would have been without the dropped chunk. *)
Theorem decode_failure_dropped (c : Component) (base64Audio : string)
    (es : list Event) :
  (forall ctx, outputContextRef c = Some ctx ->
               pcmToAudioBuffer base64Audio ctx 24000 = None) ->
  nextStartTimeRef (onAudio base64Audio c) = nextStartTimeRef c /\
  audioQueueRef (onAudio base64Audio c) = audioQueueRef c /\
  nodes (onAudio base64Audio c) = nodes c /\
  isActive (onAudio base64Audio c) = isActive c /\
  status (onAudio base64Audio c) = status c /\
  error (onAudio base64Audio c) = error c /\
  inputContextRef (onAudio base64Audio c) = inputContextRef c /\
  outputContextRef (onAudio base64Audio c) = outputContextRef c /\
  sendAudioRef (onAudio base64Audio c) = sendAudioRef c /\
  disconnectRef (onAudio base64Audio c) = disconnectRef c /\
  outbound (onAudio base64Audio c) = outbound c /\
  console (onAudio base64Audio c)
    = match outputContextRef c with
      | Some _ => console c ++ ["Audio Decode Error"%string]
      | None => console c
      end /\
  forget_console (run (onAudio base64Audio c) es) = forget_console (run c es) /\
  forall (good : string) (ctx : AudioContext) (buf : AudioBuffer),
    outputContextRef (run (onAudio base64Audio c) es) = Some ctx ->
    pcmToAudioBuffer good ctx 24000 = Some buf ->
    nodes (onAudio good (run (onAudio base64Audio c) es))
      = nodes (run c es)
        ++ [mkSourceNode (List.length (nodes (run c es))) buf
              (Math_max (currentTime ctx) (nextStartTimeRef (run c es)))
              false] /\
    audioQueueRef (onAudio good (run (onAudio base64Audio c) es))
      = audioQueueRef (run c es) ++ [List.length (nodes (run c es))] /\
    nextStartTimeRef (onAudio good (run (onAudio base64Audio c) es))
      = Math_max (currentTime ctx) (nextStartTimeRef (run c es))
        + duration buf.
Proof.
  intro Hfail.
  assert (E : onAudio base64Audio c =
              match outputContextRef c with
              | Some _ => set_console (console c ++ ["Audio Decode Error"%string]) c
              | None => c
              end).
  { unfold onAudio. destruct (outputContextRef c) as [ctx|] eqn:Hc;
      [|reflexivity]. now rewrite (Hfail ctx eq_refl). }
  assert (F : forget_console (onAudio base64Audio c) = forget_console c)
    by (rewrite E; destruct (outputContextRef c); reflexivity).
  pose proof (forget_console_run es _ _ F) as R.
  split; [rewrite E; destruct (outputContextRef c); reflexivity|].
  split; [rewrite E; destruct (outputContextRef c); reflexivity|].
  split; [rewrite E; destruct (outputContextRef c); reflexivity|].
  split; [rewrite E; destruct (outputContextRef c); reflexivity|].
  split; [rewrite E; destruct (outputContextRef c); reflexivity|].
  split; [rewrite E; destruct (outputContextRef c); reflexivity|].
  split; [rewrite E; destruct (outputContextRef c); reflexivity|].
  split; [rewrite E; destruct (outputContextRef c) eqn:Hc;
          [exact Hc|exact Hc]|].
  split; [rewrite E; destruct (outputContextRef c); reflexivity|].
  split; [rewrite E; destruct (outputContextRef c); reflexivity|].
  split; [rewrite E; destruct (outputContextRef c); reflexivity|].
  split; [rewrite E; destruct (outputContextRef c); reflexivity|].
  split; [exact R|].
  intros good ctx buf Hc Hb.
  destruct (forget_console_fields _ _ R) as (Hn & Hq & Hcur & _).
  rewrite (onAudio_scheduled _ ctx good buf Hc Hb). cbv zeta.
  cbn [set_playback nodes audioQueueRef nextStartTimeRef].
  rewrite Hn, Hq, Hcur. repeat split.
Qed.

Lemma decode_failure_dropped_witness :
  (forall ctx, outputContextRef busy0 = Some ctx ->
               pcmToAudioBuffer "AAAA" ctx 24000 = None) /\
  nextStartTimeRef (onAudio "AAAA" busy0) = 51 # 10 /\
  audioQueueRef (onAudio "AAAA" busy0) = [0%nat] /\
  forget_console (run (onAudio "AAAA" busy0) [OutputClock 6])
    = forget_console (run busy0 [OutputClock 6]) /\
  nodes (onAudio "AID/fw==" (run (onAudio "AAAA" busy0) [OutputClock 6]))
    = nodes (run busy0 [OutputClock 6])
      ++ [mkSourceNode (List.length (nodes (run busy0 [OutputClock 6])))
            (mkAudioBuffer 1 2 24000 [-32768 # 32768; 32767 # 32768])
            (Math_max 6 (nextStartTimeRef (run busy0 [OutputClock 6])))
            false].
Proof.
  assert (H : forall ctx, outputContextRef busy0 = Some ctx ->
                          pcmToAudioBuffer "AAAA" ctx 24000 = None)
    by (intros ctx _; vm_compute; reflexivity).
  split; [exact H|].
  destruct (decode_failure_dropped busy0 "AAAA" [OutputClock 6] H)
    as (H1 & H2 & _ & _ & _ & _ & _ & _ & _ & _ & _ & _ & H3 & H4).
  split; [exact H1|]. split; [exact H2|]. split; [exact H3|].
  exact (proj1 (H4 "AID/fw=="%string (mkAudioContext 24000 6)
                  (mkAudioBuffer 1 2 24000 [-32768 # 32768; 32767 # 32768])
                  eq_refl eq_refl)).
Defined.

Lemma stop_node_same (queue : list nat) (n : SourceNode) :
  node_id (stop_node queue n) = node_id n /\
  buffer (stop_node queue n) = buffer n /\
  when (stop_node queue n) = when n.
Proof.
  unfold stop_node. destruct (existsb (Nat.eqb (node_id n)) queue);
    repeat split.
Qed.

(** C8.  In Listening, the [onInterrupted] callback changes the queue, the
    cursor and the stopped flag of source nodes and nothing else: the
    session stays in Listening, and both audio contexts, the send and
    disconnect handles and what has been handed to the channel are as
    before; no source node is added, removed or rescheduled. *)
Theorem interruption_frame (c : Component) :
  listening c ->
  listening (onInterrupted c) /\
  isActive (onInterrupted c) = isActive c /\
  status (onInterrupted c) = status c /\
  error (onInterrupted c) = error c /\
  inputContextRef (onInterrupted c) = inputContextRef c /\
  outputContextRef (onInterrupted c) = outputContextRef c /\
  sendAudioRef (onInterrupted c) = sendAudioRef c /\
  disconnectRef (onInterrupted c) = disconnectRef c /\
  outbound (onInterrupted c) = outbound c /\
  map (fun n => (node_id n, buffer n, when n)) (nodes (onInterrupted c))
    = map (fun n => (node_id n, buffer n, when n)) (nodes c).
Proof.
  intro Hl. unfold onInterrupted, stopAllPlayback.
  assert (Hn : map (fun n => (node_id n, buffer n, when n))
                 (map (stop_node (audioQueueRef c)) (nodes c))
               = map (fun n => (node_id n, buffer n, when n)) (nodes c)).
  { rewrite map_map. apply map_ext. intro n.
    destruct (stop_node_same (audioQueueRef c) n) as (-> & -> & ->).
    reflexivity. }
  destruct (outputContextRef c) eqn:Hc; cbn [set_playback isActive status error
    inputContextRef outputContextRef sendAudioRef disconnectRef outbound
    nodes]; repeat split; auto; apply Hl.
Qed.

Lemma interruption_frame_witness :
  listening busy0 /\
  listening (onInterrupted busy0) /\
  sendAudioRef (onInterrupted busy0) = Some 0%nat.
Proof.
  assert (H : listening busy0) by (split; reflexivity).
  split; [exact H|].
  destruct (interruption_frame busy0 H) as (H1 & _ & _ & _ & _ & _ & H7 & _).
  split; [exact H1|exact H7].
Defined.

Lemma step_sendAudioRef (c : Component) (e : Event) :
  sendAudioRef (step c e) = sendAudioRef c.
Proof.
  destruct e as [b| |node|frame|t]; cbn [step].
  - unfold onAudio. destruct (outputContextRef c) as [ctx|]; [|reflexivity].
    destruct (pcmToAudioBuffer b ctx 24000); reflexivity.
  - unfold onInterrupted, stopAllPlayback.
    destruct (outputContextRef c); reflexivity.
  - reflexivity.
  - unfold onaudioprocess. destruct (sendAudioRef c) eqn:E; [|exact E].
    cbn. exact E.
  - unfold tick. destruct (outputContextRef c); reflexivity.
Qed.

End SessionClaims.

(* ------------------------------------------------------------------ *)
(** * Further properties of the codec *)

Section CodecExtras.
Import Platform GeminiService CodecNotions Examples.
Local Open Scope Q_scope.

Lemma inject_Z_succ (a : Z) : inject_Z (a + 1) == inject_Z a + 1.
Proof. rewrite inject_Z_plus. reflexivity. Qed.

Lemma truncate_inject_Z (v : Z) : truncate (inject_Z v) = v.
Proof. unfold truncate. cbn. apply Z.quot_1_r. Qed.

Lemma truncate_monotone (x y : Q) : x <= y -> (truncate x <= truncate y)%Z.
Proof.
  intro Hxy.
  destruct (Qlt_le_dec x 0) as [Hx|Hx], (Qlt_le_dec y 0) as [Hy|Hy].
  - destruct (truncate_nonpos x) as [_ H1]; [lra|].
    destruct (truncate_nonpos y) as [H2 _]; [lra|].
    assert (K : inject_Z (truncate x) < inject_Z (truncate y + 1))
      by (rewrite inject_Z_succ; lra).
    apply inject_Z_lt_inv in K. lia.
  - destruct (truncate_nonpos x) as [_ H1]; [lra|].
    destruct (truncate_nonneg y Hy) as [_ H2].
    assert (K1 : inject_Z (truncate x) < inject_Z 1)
      by (change (inject_Z 1) with 1; lra).
    assert (K2 : inject_Z (-1) < inject_Z (truncate y))
      by (change (inject_Z (-1)) with (-1); lra).
    apply inject_Z_lt_inv in K1. apply inject_Z_lt_inv in K2. lia.
  - lra.
  - destruct (truncate_nonneg x Hx) as [H1 _].
    destruct (truncate_nonneg y Hy) as [_ H2].
    assert (K : inject_Z (truncate x) < inject_Z (truncate y + 1))
      by (rewrite inject_Z_succ; lra).
    apply inject_Z_lt_inv in K. lia.
Qed.

Lemma spec_clamp_monotone (x y : Q) : x <= y -> spec_clamp x <= spec_clamp y.
Proof.
  intro H. unfold spec_clamp.
  destruct (Qltb_spec x (-1)), (Qltb_spec y (-1)),
           (Qltb_spec 1 x), (Qltb_spec 1 y); lra.
Qed.

Lemma spec_scale_monotone (s t : Q) : s <= t -> spec_scale s <= spec_scale t.
Proof.
  intro H. unfold spec_scale.
  destruct (Qltb_spec s 0), (Qltb_spec t 0); lra.
Qed.

(** X1.  The quantiser of [createPcmBlob] preserves the order of samples:
    a louder sample never gets a smaller integer, inside or outside
    [-1, 1]. *)
Theorem pcm_sample_monotone (x y : Q) :
  x <= y -> (pcm_sample x <= pcm_sample y)%Z.
Proof.
  intro H. rewrite !pcm_sample_spec. unfold spec_sample.
  apply truncate_monotone, spec_scale_monotone, spec_clamp_monotone, H.
Qed.

Lemma pcm_sample_monotone_witness :
  (-3 # 2) <= (1 # 3) /\ (pcm_sample (-3 # 2) <= pcm_sample (1 # 3))%Z.
Proof.
  assert (H : (-3 # 2) <= (1 # 3)) by discriminate.
  split; [exact H|]. exact (pcm_sample_monotone (-3 # 2) (1 # 3) H).
Defined.

(** X2.  Samples outside [-1, 1] saturate: everything at or above 1 is
    stored as 32767 and everything at or below -1 as -32768, with no
    wrap-around however large the sample. *)
Theorem pcm_sample_saturates (x : Q) :
  (1 <= x -> pcm_sample x = 32767%Z) /\
  (x <= -1 -> pcm_sample x = (-32768)%Z).
Proof.
  rewrite pcm_sample_spec. unfold spec_sample. split; intro H.
  - assert (E : spec_scale (spec_clamp x) == 32767).
    { unfold spec_scale, spec_clamp.
      destruct (Qltb_spec x (-1)); [lra|].
      destruct (Qltb_spec 1 x).
      - destruct (Qltb_spec 1 0); lra.
      - destruct (Qltb_spec x 0); lra. }
    now rewrite (truncate_proper _ _ E).
  - assert (E : spec_scale (spec_clamp x) == -32768).
    { unfold spec_scale, spec_clamp.
      destruct (Qltb_spec x (-1)).
      - destruct (Qltb_spec (-1) 0); lra.
      - destruct (Qltb_spec 1 x); [lra|].
        destruct (Qltb_spec x 0); lra. }
    now rewrite (truncate_proper _ _ E).
Qed.

Lemma pcm_sample_saturates_witness :
  1 <= 1000000 /\ pcm_sample 1000000 = 32767%Z /\
  -1000000 <= -1 /\ pcm_sample (-1000000) = (-32768)%Z.
Proof.
  assert (H1 : 1 <= 1000000) by discriminate.
  assert (H2 : -1000000 <= -1) by discriminate.
  split; [exact H1|]. split; [exact (proj1 (pcm_sample_saturates 1000000) H1)|].
  split; [exact H2|]. exact (proj2 (pcm_sample_saturates (-1000000)) H2).
Defined.

Lemma pcm_sample_decoded (v : Z) :
  int16 v -> pcm_sample (v # 32768) = reencoded v.
Proof.
  unfold int16, reencoded. intro Hv.
  assert (Hq : v # 32768 == inject_Z v * (1 # 32768)) by apply Qmake_32768.
  assert (Hlo : inject_Z (-32768) <= inject_Z v) by (rewrite <- Zle_Qle; lia).
  assert (Hhi : inject_Z v <= inject_Z 32767) by (rewrite <- Zle_Qle; lia).
  change (inject_Z (-32768)) with (-32768) in Hlo.
  change (inject_Z 32767) with 32767 in Hhi.
  rewrite pcm_sample_spec. unfold spec_sample.
  rewrite clamp_inside by lra.
  unfold spec_scale.
  destruct (Z.ltb_spec 0 v) as [Hpos|Hneg].
  - assert (H0 : inject_Z 0 < inject_Z v) by (rewrite <- Zlt_Qlt; lia).
    change (inject_Z 0) with 0 in H0.
    destruct (Qltb_spec (v # 32768) 0); [lra|].
    destruct (truncate_nonneg ((v # 32768) * 32767)) as [H1 H2]; [lra|].
    assert (K1 : inject_Z (truncate ((v # 32768) * 32767)) < inject_Z v) by lra.
    assert (K2 : inject_Z v < inject_Z (truncate ((v # 32768) * 32767) + 2)).
    { rewrite inject_Z_plus. change (inject_Z 2) with 2. lra. }
    apply inject_Z_lt_inv in K1. apply inject_Z_lt_inv in K2. lia.
  - assert (H0 : inject_Z v <= inject_Z 0) by (rewrite <- Zle_Qle; lia).
    change (inject_Z 0) with 0 in H0.
    destruct (Qltb_spec (v # 32768) 0) as [Hn|Hn].
    + rewrite (truncate_proper _ (inject_Z v)) by lra.
      apply truncate_inject_Z.
    + rewrite (truncate_proper _ (inject_Z v)) by lra.
      apply truncate_inject_Z.
Qed.

Lemma Int16Array_of_buffer_pairs (bytes : list byte) (l : list Z) :
  Int16Array_of_buffer bytes = Some l -> l = int16_pairs bytes.
Proof.
  revert l. induction bytes as [|a|a b bytes IH] using list_ind2; intro l.
  - cbn. now intros [= <-].
  - cbn. discriminate.
  - cbn [Int16Array_of_buffer int16_pairs].
    destruct (Int16Array_of_buffer bytes) as [r|]; [|discriminate].
    intros [= <-]. now rewrite (IH r eq_refl).
Qed.

(** Every way [pcmToAudioBuffer] can succeed. *)
Lemma pcmToAudioBuffer_Some_inv (base64 : string) (ctx : AudioContext)
    (sampleRate : Z) (buf : AudioBuffer) :
  pcmToAudioBuffer base64 ctx sampleRate = Some buf ->
  exists bytes l,
    decode base64 = Some bytes /\ Int16Array_of_buffer bytes = Some l /\
    l <> [] /\ (0 < sampleRate)%Z /\
    buf = mkAudioBuffer 1 (List.length l) sampleRate
            (map (fun v => v # 32768) l).
Proof.
  unfold pcmToAudioBuffer.
  destruct (decode base64) as [bytes|]; [|discriminate].
  destruct (Int16Array_of_buffer bytes) as [l|] eqn:El; [|discriminate].
  unfold createBuffer. cbn [Z.leb Z.compare orb].
  destruct l as [|v l].
  - cbn. discriminate.
  - cbn [List.length Nat.eqb orb].
    destruct (Z.leb_spec sampleRate 0) as [H|H]; [discriminate|].
    intros [= <-]. exists bytes, (v :: l). repeat split; auto. discriminate.
Qed.

(** X3.  Decoding a chunk and encoding the samples again does not give the
    chunk back: every positive 16-bit value comes back one smaller, zero
    and the negative values come back as they were. *)
Theorem reencode_drift (base64 : string) (ctx : AudioContext)
    (bytes : list byte) (buf : AudioBuffer) :
  decode base64 = Some bytes ->
  pcmToAudioBuffer base64 ctx 24000 = Some buf ->
  map pcm_sample (channelData buf) = map reencoded (int16_pairs bytes) /\
  decode (data (createPcmBlob (channelData buf)))
    = Some (Uint8Array_of_Int16Array (map reencoded (int16_pairs bytes))).
Proof.
  intros Hd Hb.
  destruct (pcmToAudioBuffer_Some_inv _ _ _ _ Hb)
    as (bytes' & l & Hd' & Hl & _ & _ & ->).
  assert (bytes' = bytes) by congruence. subst bytes'.
  assert (E : map pcm_sample (map (fun v => v # 32768) l) = map reencoded l).
  { pose proof (Int16Array_of_buffer_int16 _ _ Hl) as Hi.
    rewrite map_map. clear Hl Hb. induction Hi as [|v l Hv _ IH]; cbn [map].
    - reflexivity.
    - now rewrite IH, (pcm_sample_decoded v Hv). }
  cbn [channelData]. rewrite <- (Int16Array_of_buffer_pairs _ _ Hl).
  split; [exact E|].
  unfold createPcmBlob. cbn [data]. rewrite E. apply decode_encode_bytes.
Qed.

Lemma reencode_drift_witness :
  decode "AID/fwEAAAA=" = Some [x00; x80; xff; x7f; x01; x00; x00; x00] /\
  map pcm_sample [-32768 # 32768; 32767 # 32768; 1 # 32768; 0 # 32768]
    = [-32768; 32766; 0; 0]%Z.
Proof.
  assert (Hd : decode "AID/fwEAAAA="
               = Some [x00; x80; xff; x7f; x01; x00; x00; x00])
    by (vm_compute; reflexivity).
  split; [exact Hd|].
  exact (proj1 (reencode_drift "AID/fwEAAAA=" ctx24 _
                  (mkAudioBuffer 1 4 24000
                     [-32768 # 32768; 32767 # 32768; 1 # 32768; 0 # 32768])
                  Hd eq_refl)).
Defined.

(** X4.  Whatever [pcmToAudioBuffer] returns is a mono buffer at the rate
    asked for, with at least one sample-frame, as many as the chunk has
    pairs of bytes, and every sample in [-1, 1): full scale positive is
    never reached. *)
Theorem decoded_buffer_shape (base64 : string) (ctx : AudioContext)
    (sampleRate : Z) (buf : AudioBuffer) :
  pcmToAudioBuffer base64 ctx sampleRate = Some buf ->
  numberOfChannels buf = 1%Z /\
  buf_sampleRate buf = sampleRate /\
  (1 <= buf_length buf)%nat /\
  buf_length buf = List.length (channelData buf) /\
  (exists bytes, decode base64 = Some bytes /\
                 List.length bytes = (2 * buf_length buf)%nat) /\
  Forall (fun s => -1 <= s /\ s < 1) (channelData buf).
Proof.
  intro Hb.
  destruct (pcmToAudioBuffer_Some_inv _ _ _ _ Hb)
    as (bytes & l & Hd & Hl & Hne & Hr & ->).
  cbn [numberOfChannels buf_sampleRate buf_length channelData].
  rewrite length_map. repeat split.
  - destruct l; [congruence|cbn; lia].
  - exists bytes. split; [exact Hd|]. now apply Int16Array_of_buffer_length.
  - apply Forall_map.
    eapply Forall_impl; [|exact (Int16Array_of_buffer_int16 _ _ Hl)].
    intros v [Hlo Hhi]. unfold Qle, Qlt. cbn. lia.
Qed.

Lemma decoded_buffer_shape_witness :
  pcmToAudioBuffer "AID/fw==" ctx24 24000
    = Some (mkAudioBuffer 1 2 24000 [-32768 # 32768; 32767 # 32768]) /\
  Forall (fun s => -1 <= s /\ s < 1) [-32768 # 32768; 32767 # 32768].
Proof.
  assert (H : pcmToAudioBuffer "AID/fw==" ctx24 24000
              = Some (mkAudioBuffer 1 2 24000 [-32768 # 32768; 32767 # 32768]))
    by (vm_compute; reflexivity).
  split; [exact H|].
  destruct (decoded_buffer_shape _ _ _ _ H) as (_ & _ & _ & _ & _ & K).
  exact K.
Defined.

(** X5.  At 24 kHz a chunk of [n] bytes plays for [n / 48000] seconds. *)
Theorem chunk_duration (base64 : string) (ctx : AudioContext)
    (bytes : list byte) (buf : AudioBuffer) :
  decode base64 = Some bytes ->
  pcmToAudioBuffer base64 ctx 24000 = Some buf ->
  duration buf == Z.of_nat (List.length bytes) # 48000.
Proof.
  intros Hd Hb.
  destruct (pcmToAudioBuffer_Some_inv _ _ _ _ Hb)
    as (bytes' & l & Hd' & Hl & _ & _ & ->).
  assert (bytes' = bytes) by congruence. subst bytes'.
  rewrite (Int16Array_of_buffer_length _ _ Hl).
  unfold duration, Qeq. cbn [buf_length buf_sampleRate Qnum Qden Z.to_pos]. lia.
Qed.

Lemma chunk_duration_witness :
  decode "AID/fw==" = Some [x00; x80; xff; x7f] /\
  duration (mkAudioBuffer 1 2 24000 [-32768 # 32768; 32767 # 32768])
    == Z.of_nat (List.length [x00; x80; xff; x7f]) # 48000.
Proof.
  assert (Hd : decode "AID/fw==" = Some [x00; x80; xff; x7f])
    by (vm_compute; reflexivity).
  split; [exact Hd|].
  exact (chunk_duration "AID/fw==" ctx24 _
           (mkAudioBuffer 1 2 24000 [-32768 # 32768; 32767 # 32768])
           Hd eq_refl).
Defined.

Lemma string_of_list_ascii_length (l : list ascii) :
  String.length (string_of_list_ascii l) = List.length l.
Proof. induction l as [|a l IH]; cbn; [reflexivity|now rewrite IH]. Qed.

Lemma encode_octets_length (l : list ascii) :
  List.length (encode_octets l) = (4 * ((List.length l + 2) / 3))%nat.
Proof.
  induction l as [|a|a b|a b c l IH] using list_ind3.
  - reflexivity.
  - reflexivity.
  - reflexivity.
  - cbn [encode_octets]. cbv zeta. rewrite length_app, IH.
    cbn [List.length].
    replace (S (S (S (List.length l))) + 2)%nat
      with (List.length l + 2 + 1 * 3)%nat by lia.
    rewrite Nat.div_add by lia. lia.
Qed.

(** X6.  The base64 text of [n] bytes has [4 * ceil (n / 3)] characters, so
    the payload [createPcmBlob] builds for [k] samples has
    [4 * ceil (2 k / 3)]. *)
Theorem encode_length (bytes : Uint8Array) (samples : Float32Array) :
  String.length (encode bytes) = (4 * ((List.length bytes + 2) / 3))%nat /\
  String.length (data (createPcmBlob samples))
    = (4 * ((2 * List.length samples + 2) / 3))%nat.
Proof.
  assert (H : forall b : Uint8Array,
             String.length (encode b) = (4 * ((List.length b + 2) / 3))%nat).
  { intro b. unfold encode, btoa.
    rewrite string_of_list_ascii_length, list_ascii_of_string_of_list_ascii,
      encode_octets_length, length_map. reflexivity. }
  split; [apply H|].
  unfold createPcmBlob. cbn [data].
  now rewrite H, Uint8Array_of_Int16Array_length, length_map.
Qed.

End CodecExtras.

(* ------------------------------------------------------------------ *)
(** * The request/response services *)

Section ServiceExtras.
Import Platform GeminiService Services Examples.
Local Open Scope string_scope.

Lemma pcmToAudioBuffer_None_iff (base64 : string) (ctx : AudioContext) :
  pcmToAudioBuffer base64 ctx 24000 = None <->
  decode base64 = None \/
  exists bytes, decode base64 = Some bytes /\
    (Nat.odd (List.length bytes) = true \/ List.length bytes = 0%nat).
Proof.
  unfold pcmToAudioBuffer.
  destruct (decode base64) as [bytes|]; [|split; auto].
  split.
  - intro H. right. exists bytes. split; [reflexivity|].
    destruct (Int16Array_of_buffer bytes) as [l|] eqn:El.
    + right. apply Int16Array_of_buffer_length in El as ->.
      destruct l; [reflexivity|discriminate].
    + left. now apply Int16Array_of_buffer_None.
  - intros [H|(bytes' & [= <-] & [H|H])]; [discriminate| |].
    + apply Int16Array_of_buffer_None in H. now rewrite H.
    + destruct bytes; [reflexivity|discriminate].
Qed.

(** X7.  [generateSpeech] never throws.  It returns [null] exactly when
    the request is rejected, the response has no audio payload, the
    payload is not base64, or it decodes to an odd or zero number of
    bytes; otherwise it returns a mono 24 kHz buffer.  "TTS Error" is
    logged when the request or the decoding fails, and not when the
    payload is missing or empty. *)
Theorem generateSpeech_result (generateContent : string -> TtsReply)
    (text : string) :
  (fst (generateSpeech generateContent text) = None <->
   generateContent text = TtsRejected \/
   generateContent text = TtsResponse None \/
   exists base64Audio,
     generateContent text = TtsResponse (Some base64Audio) /\
     (decode base64Audio = None \/
      exists bytes, decode base64Audio = Some bytes /\
        (Nat.odd (List.length bytes) = true \/ List.length bytes = 0%nat))) /\
  (forall buf, fst (generateSpeech generateContent text) = Some buf ->
     numberOfChannels buf = 1%Z /\ buf_sampleRate buf = 24000%Z /\
     snd (generateSpeech generateContent text) = []) /\
  (snd (generateSpeech generateContent text) = ["TTS Error"] <->
   generateContent text = TtsRejected \/
   exists base64Audio,
     generateContent text = TtsResponse (Some base64Audio) /\
     base64Audio <> "" /\
     pcmToAudioBuffer base64Audio (mkAudioContext 24000 0) 24000 = None).
Proof.
  unfold generateSpeech.
  destruct (generateContent text) as [|[b|]] eqn:Hg.
  - (* rejected *)
    cbn [fst snd]. split; [|split].
    + split; auto.
    + discriminate.
    + split; auto.
  - destruct b as [|a b]; cbn [truthy].
    + (* empty payload *)
      cbn [fst snd]. split; [|split].
      * split; [|reflexivity]. intros _. right. right. exists "".
        split; [reflexivity|]. right. exists []. split; [reflexivity|now right].
      * discriminate.
      * split; [discriminate|].
        intros [H|(b' & Hb' & Hne & _)]; [discriminate|].
        injection Hb' as <-. congruence.
    + destruct (pcmToAudioBuffer (String a b) (mkAudioContext 24000 0) 24000)
        as [buf|] eqn:Hb; cbn [fst snd].
      * (* decoded *)
        split; [|split].
        -- split; [discriminate|].
           intros [H|[H|(b' & Hb' & H)]]; try discriminate.
           injection Hb' as <-.
           assert (K : pcmToAudioBuffer (String a b) (mkAudioContext 24000 0)
                         24000 = None)
             by (apply pcmToAudioBuffer_None_iff; exact H).
           congruence.
        -- intros buf' Hbuf. injection Hbuf as <-.
           destruct (pcmToAudioBuffer_Some_inv _ _ _ _ Hb)
             as (bs & l & _ & _ & _ & _ & ->).
           repeat split.
        -- split; [discriminate|].
           intros [H|(b' & Hb' & _ & H)]; [discriminate|].
           injection Hb' as <-. congruence.
      * (* not decodable *)
        split; [|split].
        -- split; [|reflexivity]. intros _. right. right.
           exists (String a b). split; [reflexivity|].
           now apply pcmToAudioBuffer_None_iff in Hb.
        -- discriminate.
        -- split; [|reflexivity]. intros _. right. exists (String a b).
           split; [reflexivity|]. split; [discriminate|exact Hb].
  - (* no payload *)
    cbn [fst snd]. split; [|split].
    + split; auto.
    + discriminate.
    + split; [discriminate|].
      intros [H|(b' & H & _)]; discriminate.
Qed.

Lemma generateSpeech_result_witness :
  fst (generateSpeech (fun _ => TtsResponse (Some "AID/fw==")) "Namaste")
    = Some (mkAudioBuffer 1 2 24000 [-32768 # 32768; 32767 # 32768]%Q) /\
  snd (generateSpeech (fun _ => TtsResponse (Some "AID/fw==")) "Namaste") = [].
Proof.
  assert (H : fst (generateSpeech (fun _ => TtsResponse (Some "AID/fw=="))
                     "Namaste")
              = Some (mkAudioBuffer 1 2 24000
                        [-32768 # 32768; 32767 # 32768]%Q))
    by (vm_compute; reflexivity).
  split; [exact H|].
  destruct (generateSpeech_result (fun _ => TtsResponse (Some "AID/fw=="))
              "Namaste") as (_ & K & _).
  exact (proj2 (proj2 (K _ H))).
Defined.

Lemma append_assoc (a b c : string) : (a ++ b) ++ c = a ++ (b ++ c).
Proof. induction a as [|x a IH]; cbn; [reflexivity|now rewrite IH]. Qed.

Lemma append_nil_r (a : string) : a ++ "" = a.
Proof. induction a as [|x a IH]; cbn; [reflexivity|now rewrite IH]. Qed.

Lemma append_length (a b : string) :
  String.length (a ++ b) = (String.length a + String.length b)%nat.
Proof. induction a as [|x a IH]; cbn; [reflexivity|now rewrite IH]. Qed.

Lemma prefix_append (a b : string) : String.prefix a (a ++ b) = true.
Proof.
  induction a as [|x a IH]; cbn; [now destruct b|].
  destruct (ascii_dec x x); [exact IH|congruence].
Qed.

Lemma truthy_length (t : string) :
  truthy t = true -> (0 < String.length t)%nat.
Proof. destruct t; [discriminate|cbn; lia]. Qed.

Lemma truthy_false (t : string) : truthy t = false -> t = "".
Proof. destruct t; [reflexivity|discriminate]. Qed.

Lemma last_cons_indep (A : Type) (x : A) (l : list A) (d d' : A) :
  last (x :: l) d = last (x :: l) d'.
Proof.
  revert x. induction l as [|y l IH]; intro x; [reflexivity|].
  change (last (y :: l) d = last (y :: l) d'). apply IH.
Qed.

(** The loop invariant of the stream: the text grows by the chunk texts,
    and every new update is longer than what was there, is a prefix of the
    final text, and the last one is the final text. *)
Lemma consume_spec (chunks : list (option string)) :
  forall fullText updates,
  exists new,
    consume chunks fullText updates
      = (fullText ++ fold_right String.append "" (map chunk_text chunks),
         (updates ++ new)%list) /\
    Forall (fun u =>
              String.prefix u
                (fullText ++ fold_right String.append "" (map chunk_text chunks))
              = true /\
              (String.length fullText < String.length u)%nat) new /\
    StronglySorted (fun u v => (String.length u < String.length v)%nat) new /\
    last new fullText
      = fullText ++ fold_right String.append "" (map chunk_text chunks) /\
    List.length new
      = List.length (filter (fun c => truthy (chunk_text c)) chunks).
Proof.
  induction chunks as [|c chunks IH]; intros fullText updates.
  - exists []. cbn. rewrite append_nil_r, app_nil_r.
    repeat split; constructor.
  - cbn [consume map fold_right filter].
    assert (Hskip : truthy (chunk_text c) = false ->
              exists new,
                consume chunks fullText updates
                  = (fullText ++ chunk_text c
                       ++ fold_right String.append "" (map chunk_text chunks),
                     (updates ++ new)%list) /\
                Forall (fun u =>
                          String.prefix u
                            (fullText ++ chunk_text c
                               ++ fold_right String.append ""
                                    (map chunk_text chunks)) = true /\
                          (String.length fullText < String.length u)%nat) new /\
                StronglySorted
                  (fun u v => (String.length u < String.length v)%nat) new /\
                last new fullText
                  = fullText ++ chunk_text c
                      ++ fold_right String.append "" (map chunk_text chunks) /\
                List.length new
                  = List.length (filter (fun c => truthy (chunk_text c)) chunks)).
    { intro Hf. rewrite (truthy_false _ Hf). cbn [String.append]. apply IH. }
    destruct c as [t|]; cbn [chunk_text] in *.
    + destruct (truthy t) eqn:Ht; [|now apply Hskip].
      destruct (IH (fullText ++ t) (updates ++ [(fullText ++ t)%string])%list)
        as (new & E & Hall & Hs & Hlast & Hlen).
      rewrite append_assoc in E, Hall, Hlast.
      exists ((fullText ++ t) :: new).
      rewrite E, <- app_assoc. cbn [app].
      pose proof (truthy_length t Ht) as Hpos.
      assert (Hgrow : (String.length fullText < String.length (fullText ++ t))%nat)
        by (rewrite append_length; lia).
      split; [reflexivity|]. split; [|split; [|split]].
      * constructor.
        -- split; [|exact Hgrow].
           rewrite <- append_assoc. apply prefix_append.
        -- eapply Forall_impl; [|exact Hall].
           intros u [H1 H2]. split; [exact H1|lia].
      * constructor; [exact Hs|].
        eapply Forall_impl; [|exact Hall]. intros u [_ H2]. exact H2.
      * destruct new as [|u new]; [exact Hlast|].
        change (last ((fullText ++ t) :: u :: new) fullText)
          with (last (u :: new) fullText).
        rewrite <- Hlast. apply last_cons_indep.
      * cbn [List.length]. now rewrite Hlen.
    + now apply Hskip.
Qed.

(** X8.  In stream mode every call of [onStreamUpdate] passes a prefix of
    the text finally returned, each longer than the one before; there is
    one call per chunk with a non-empty text; the text returned is the
    concatenation of the chunk texts and equals the last update, or is
    empty when there was none.  If the stream throws, the same updates
    have been made and the fixed error text is returned instead. *)
Theorem stream_updates (chunks : list (option string))
    (response : option Response) :
  let done := sendLegalQuery_stream (Stream chunks (StreamDone response)) in
  let thrown := sendLegalQuery_stream (Stream chunks StreamThrows) in
  let final := text (fst (fst done)) in
  let updates := snd (fst done) in
  final = fold_right String.append "" (map chunk_text chunks) /\
  Forall (fun u => String.prefix u final = true) updates /\
  StronglySorted (fun u v => (String.length u < String.length v)%nat) updates /\
  last updates "" = final /\
  List.length updates
    = List.length (filter (fun c => truthy (chunk_text c)) chunks) /\
  snd (fst thrown) = updates /\
  fst (fst thrown) = error_response.
Proof.
  cbv zeta. unfold sendLegalQuery_stream.
  destruct (consume_spec chunks "" []) as (new & E & Hall & Hs & Hlast & Hlen).
  rewrite E. cbn [fst snd text app String.append] in *.
  repeat split; auto.
  eapply Forall_impl; [|exact Hall]. now intros u [H _].
Qed.

End ServiceExtras.

(* ------------------------------------------------------------------ *)
(** * The live connection *)

Section LiveConnectionExtras.
Import Platform GeminiService LiveVoiceInterface Services LiveConnection.
Import Examples.
Local Open Scope Q_scope.

Lemma existsb_snoc_self (id : nat) (queue : list nat) :
  existsb (Nat.eqb id) (queue ++ [id]) = true.
Proof.
  rewrite existsb_app. cbn. rewrite Nat.eqb_refl. apply orb_true_r.
Qed.

(** X9.  [onmessage] handles the audio of a message before its
    interruption flag: when one message carries both, the unit is
    scheduled and stopped at once, the queue ends empty and the cursor is
    back at the output clock, so that audio is never heard. *)
Theorem interrupted_message_audio (c : Component) (ctx : AudioContext)
    (d : string) (buf : AudioBuffer) :
  outputContextRef c = Some ctx ->
  truthy d = true ->
  pcmToAudioBuffer d ctx 24000 = Some buf ->
  audioQueueRef (onmessage (mkLiveServerMessage (Some d) true) c) = [] /\
  nextStartTimeRef (onmessage (mkLiveServerMessage (Some d) true) c)
    = currentTime ctx /\
  exists older u,
    nodes (onmessage (mkLiveServerMessage (Some d) true) c) = older ++ [u] /\
    List.length older = List.length (nodes c) /\
    buffer u = buf /\ stopped u = true.
Proof.
  intros Hc Hd Hb. unfold onmessage. cbn [audioData interrupted]. rewrite Hd.
  rewrite (onAudio_scheduled c ctx d buf Hc Hb). cbv zeta.
  unfold onInterrupted, stopAllPlayback.
  cbn [set_console set_playback outputContextRef audioQueueRef nodes console
       nextStartTimeRef].
  rewrite Hc. cbn [set_playback audioQueueRef nextStartTimeRef nodes].
  split; [reflexivity|]. split; [reflexivity|].
  rewrite map_app. cbn [map].
  eexists. eexists. split; [reflexivity|].
  split; [apply length_map|].
  unfold stop_node. cbn [node_id].
  rewrite existsb_snoc_self. cbn [buffer stopped]. split; reflexivity.
Qed.

Lemma interrupted_message_audio_witness :
  outputContextRef busy0 = Some (mkAudioContext 24000 1) /\
  truthy "AID/fw==" = true /\
  audioQueueRef (onmessage (mkLiveServerMessage (Some "AID/fw=="%string) true)
                   busy0) = [] /\
  map stopped
    (nodes (onmessage (mkLiveServerMessage (Some "AID/fw=="%string) true)
              busy0)) = [true; true].
Proof.
  split; [reflexivity|]. split; [reflexivity|].
  destruct (interrupted_message_audio busy0 (mkAudioContext 24000 1)
              "AID/fw=="%string
              (mkAudioBuffer 1 2 24000 [-32768 # 32768; 32767 # 32768])
              eq_refl eq_refl eq_refl) as (H & _).
  split; [exact H|]. vm_compute. reflexivity.
Defined.

Lemma live_run_fulfilled (es : list LiveEvent) (k : Connection) :
  sessionPromise k = Fulfilled ->
  live_run k es
    = mkConnection Fulfilled (reactions k) (calls k ++ requested es).
Proof.
  unfold live_run. revert k.
  induction es as [|e es IH]; intros k Hk; cbn [fold_left requested].
  - rewrite app_nil_r. destruct k. cbn in Hk. now subst.
  - destruct e as [data| | |]; cbn [live_step];
      unfold live_sendAudioChunk, live_disconnect, then_call, fulfil, reject;
      rewrite Hk; try (rewrite IH by reflexivity; cbn [reactions calls];
                       now rewrite <- app_assoc);
      now apply IH.
Qed.

Lemma live_run_rejected (es : list LiveEvent) (k : Connection) :
  sessionPromise k = Rejected -> live_run k es = k.
Proof.
  unfold live_run. revert k.
  induction es as [|e es IH]; intros k Hk; cbn [fold_left]; [reflexivity|].
  assert (E : live_step k e = k).
  { destruct e; cbn [live_step];
      unfold live_sendAudioChunk, live_disconnect, then_call, fulfil, reject;
      now rewrite Hk. }
  rewrite E. now apply IH.
Qed.

Lemma live_run_pending (es : list LiveEvent) (k : Connection) :
  sessionPromise k = Pending ->
  match settled es with
  | Pending =>
      live_run k es = mkConnection Pending (reactions k ++ requested es) (calls k)
  | Fulfilled =>
      live_run k es
        = mkConnection Fulfilled [] (calls k ++ reactions k ++ requested es)
  | Rejected =>
      calls (live_run k es) = calls k /\ reactions (live_run k es) = [] /\
      sessionPromise (live_run k es) = Rejected
  end.
Proof.
  unfold live_run. revert k.
  induction es as [|e es IH]; intros k Hk; cbn [fold_left settled requested].
  - rewrite app_nil_r. destruct k. cbn in Hk. now subst.
  - destruct e as [data| | |]; cbn [live_step].
    + unfold live_sendAudioChunk, then_call. rewrite Hk.
      specialize (IH (mkConnection Pending
                        (reactions k ++ [SendRealtimeInput (createPcmBlob data)])
                        (calls k)) eq_refl).
      cbn [reactions calls] in IH.
      destruct (settled es); rewrite <- ?app_assoc in IH; exact IH.
    + unfold live_disconnect, then_call. rewrite Hk.
      specialize (IH (mkConnection Pending (reactions k ++ [Close]) (calls k))
                    eq_refl).
      cbn [reactions calls] in IH.
      destruct (settled es); rewrite <- ?app_assoc in IH; exact IH.
    + unfold fulfil. rewrite Hk.
      fold (live_run (mkConnection Fulfilled [] (calls k ++ reactions k)) es).
      rewrite live_run_fulfilled by reflexivity.
      cbn [reactions calls]. now rewrite <- app_assoc.
    + unfold reject. rewrite Hk.
      fold (live_run (mkConnection Rejected [] (calls k)) es).
      rewrite live_run_rejected by reflexivity. repeat split.
Qed.

(** X10.  The calls made on the session are the calls of [sendAudioChunk]
    and [disconnect], each once and in call order, however they interleave
    with the opening of the connection: those made while the session
    promise is pending wait and are replayed in order when it is
    fulfilled.  While it is pending nothing has reached the session; if it
    is rejected nothing ever does.  In particular a chunk sent after
    [disconnect] is still passed to the session, after [close]. *)
Theorem session_calls_in_order (es : list LiveEvent) :
  match settled es with
  | Fulfilled =>
      calls (live_run connect es) = requested es /\
      reactions (live_run connect es) = []
  | Pending =>
      calls (live_run connect es) = [] /\
      reactions (live_run connect es) = requested es
  | Rejected =>
      calls (live_run connect es) = [] /\ reactions (live_run connect es) = []
  end.
Proof.
  pose proof (live_run_pending es connect eq_refl) as H.
  destruct (settled es); cbn [reactions calls connect app] in H.
  - rewrite H. split; reflexivity.
  - rewrite H. split; reflexivity.
  - destruct H as (H1 & H2 & _). split; assumption.
Qed.

End LiveConnectionExtras.

(* ------------------------------------------------------------------ *)
(** * Further properties of the playback scheduler *)

Section SchedulerExtras.
Import Platform GeminiService LiveVoiceInterface SchedulerNotions Examples.
Local Open Scope Q_scope.

Lemma splice_out_In (id x : nat) (q : list nat) :
  In x (splice_out id q) -> In x q.
Proof.
  induction q as [|y q IH]; cbn [splice_out]; [auto|].
  destruct (Nat.eqb_spec y id); cbn; intuition.
Qed.

Lemma splice_out_other (id x : nat) (q : list nat) :
  In x q -> x <> id -> In x (splice_out id q).
Proof.
  induction q as [|y q IH]; cbn [splice_out]; [auto|].
  intros Hin Hne. destruct (Nat.eqb_spec y id) as [->|Hy].
  - destruct Hin as [E|H]; [congruence|exact H].
  - destruct Hin as [E|H]; [now left|right; auto].
Qed.

Lemma splice_out_NoDup (id : nat) (q : list nat) :
  NoDup q -> NoDup (splice_out id q) /\ ~ In id (splice_out id q).
Proof.
  induction 1 as [|y q Hy Hq [IH1 IH2]]; cbn [splice_out].
  - split; [constructor|auto].
  - destruct (Nat.eqb_spec y id) as [->|Hne].
    + split; assumption.
    + split.
      * constructor; [|exact IH1]. intro H. apply Hy.
        now apply splice_out_In in H.
      * intros [H|H]; [congruence|auto].
Qed.

Lemma stop_node_id (queue : list nat) (n : SourceNode) :
  node_id (stop_node queue n) = node_id n.
Proof. unfold stop_node. now destruct (existsb _ queue). Qed.

Lemma nth_error_lt (A : Type) (l : list A) (i : nat) (x : A) :
  nth_error l i = Some x -> (i < List.length l)%nat.
Proof. intro H. apply nth_error_Some. congruence. Qed.

Lemma well_formed_step (c : Component) (e : Event) :
  well_formed c -> well_formed (step c e).
Proof.
  intros (Hid & Hnd & Hq). destruct e as [b| |node|frame|t]; cbn [step].
  - unfold onAudio.
    destruct (outputContextRef c) as [ctx|]; [|now repeat split].
    destruct (pcmToAudioBuffer b ctx 24000) as [buf|]; [|now repeat split].
    unfold well_formed. cbn [set_playback nodes audioQueueRef].
    split; [|split].
    + intros i n Hn.
      destruct (Nat.lt_ge_cases i (List.length (nodes c))) as [Hlt|Hge].
      * rewrite nth_error_app1 in Hn by exact Hlt. now apply Hid.
      * rewrite nth_error_app2 in Hn by exact Hge.
        destruct (i - List.length (nodes c))%nat as [|k] eqn:Ek.
        -- cbn in Hn. injection Hn as <-. cbn. lia.
        -- cbn in Hn. now destruct k.
    + apply NoDup_app; [exact Hnd|repeat constructor; auto|].
      intros id Hin [<-|[]].
      destruct (Hq _ Hin) as (n & Hn & _).
      apply nth_error_lt in Hn. lia.
    + intros id Hin. apply in_app_or in Hin as [Hin|[<-|[]]].
      * destruct (Hq _ Hin) as (n & Hn & Hs). exists n. split; [|exact Hs].
        rewrite nth_error_app1; [exact Hn|].
        now apply nth_error_lt in Hn.
      * eexists. split.
        -- rewrite nth_error_app2 by lia. rewrite Nat.sub_diag. reflexivity.
        -- reflexivity.
  - unfold onInterrupted, stopAllPlayback.
    assert (H : forall cursor,
              well_formed
                (set_playback cursor []
                   (map (stop_node (audioQueueRef c)) (nodes c)) c)).
    { intro cursor. unfold well_formed. cbn [set_playback nodes audioQueueRef].
      split; [|split; [constructor|intros id []]].
      intros i n Hn. rewrite nth_error_map in Hn.
      destruct (nth_error (nodes c) i) as [m|] eqn:Em; [|discriminate].
      injection Hn as <-. rewrite stop_node_id. now apply Hid. }
    destruct (outputContextRef c); apply H.
  - unfold onended, well_formed. cbn [set_playback nodes audioQueueRef].
    split; [exact Hid|]. split; [apply splice_out_NoDup, Hnd|].
    intros id Hin. apply Hq. now apply splice_out_In in Hin.
  - unfold onaudioprocess. destruct (sendAudioRef c); now repeat split.
  - unfold tick. destruct (outputContextRef c); now repeat split.
Qed.

(** X11.  Whatever happens to the component, source nodes stay named by
    their position, the queue of active units never holds a unit twice,
    and every queued unit is a scheduled one that has not been stopped. *)
Theorem well_formed_run (c : Component) (es : list Event) :
  well_formed c -> well_formed (run c es).
Proof.
  unfold run. revert c.
  induction es as [|e es IH]; intros c H; [exact H|].
  cbn [fold_left]. apply IH, well_formed_step, H.
Qed.

Lemma well_formed_run_witness :
  well_formed listening0 /\
  well_formed (run listening0 (mixed_run ++ [Interruption] ++ paced_run)).
Proof.
  assert (H : well_formed listening0).
  { unfold well_formed. cbn. split; [|split; [constructor|intros id []]].
    intros i n Hn. now destruct i. }
  split; [exact H|].
  exact (well_formed_run listening0 _ H).
Defined.

(** X12.  When a unit ends it leaves the queue and only it does: the
    other queued units stay, in the order they were in, and neither the
    cursor nor any source node changes. *)
Theorem ended_unit_leaves_queue (c : Component) (node : nat) :
  NoDup (audioQueueRef c) ->
  audioQueueRef (onended node c)
    = filter (fun id => negb (Nat.eqb id node)) (audioQueueRef c) /\
  ~ In node (audioQueueRef (onended node c)) /\
  nextStartTimeRef (onended node c) = nextStartTimeRef c /\
  nodes (onended node c) = nodes c.
Proof.
  intro Hnd. unfold onended. cbn [set_playback audioQueueRef nextStartTimeRef nodes].
  split; [|split; [apply splice_out_NoDup, Hnd|split; reflexivity]].
  induction Hnd as [|y q Hy Hq IH]; cbn [splice_out filter]; [reflexivity|].
  destruct (Nat.eqb_spec y node) as [->|Hne]; cbn [negb].
  - symmetry. apply forallb_filter_id. apply forallb_forall.
    intros x Hx. apply negb_true_iff, Nat.eqb_neq. congruence.
  - now rewrite IH.
Qed.

Lemma ended_unit_leaves_queue_witness :
  NoDup [3; 1; 4]%nat /\
  audioQueueRef
    (onended 1 (set_playback 0 [3; 1; 4]%nat (nodes listening0) listening0))
    = [3; 4]%nat.
Proof.
  assert (H : NoDup [3; 1; 4]%nat).
  { repeat constructor; cbn; intuition; discriminate. }
  split; [exact H|].
  exact (proj1 (ended_unit_leaves_queue
                  (set_playback 0 [3; 1; 4]%nat (nodes listening0) listening0)
                  1 H)).
Defined.

Lemma accounted_step (done : list nat) (c : Component) (e : Event) :
  accounted done c -> accounted (done ++ ended_in [e]) (step c e).
Proof.
  intro H. destruct e as [b| |node|frame|t]; cbn [step ended_in];
    rewrite ?app_nil_r.
  - unfold onAudio.
    destruct (outputContextRef c) as [ctx|]; [|exact H].
    destruct (pcmToAudioBuffer b ctx 24000) as [buf|]; [|exact H].
    intros n Hn. cbn [set_playback nodes audioQueueRef] in *.
    apply in_app_or in Hn as [Hn|[<-|[]]].
    + destruct (H n Hn) as [K|[K|K]]; auto.
      right. left. apply in_or_app. now left.
    + right. left. apply in_or_app. right. now left.
  - unfold onInterrupted, stopAllPlayback.
    assert (K : forall cursor,
              accounted done
                (set_playback cursor []
                   (map (stop_node (audioQueueRef c)) (nodes c)) c)).
    { intros cursor n Hn. cbn [set_playback nodes audioQueueRef] in *.
      apply in_map_iff in Hn as (m & <- & Hm).
      rewrite stop_node_id. unfold stop_node.
      destruct (existsb (Nat.eqb (node_id m)) (audioQueueRef c)) eqn:E.
      - now left.
      - destruct (H m Hm) as [K|[K|K]]; auto.
        exfalso. apply not_true_iff_false in E. apply E.
        apply existsb_exists. exists (node_id m). split; [exact K|].
        apply Nat.eqb_refl. }
    destruct (outputContextRef c); apply K.
  - intros n Hn. cbn [onended set_playback nodes audioQueueRef] in *.
    destruct (H n Hn) as [K|[K|K]]; auto.
    + destruct (Nat.eq_dec (node_id n) node) as [E|E].
      * right. right. apply in_or_app. right. now left.
      * right. left. now apply splice_out_other.
    + right. right. apply in_or_app. now left.
  - unfold onaudioprocess. destruct (sendAudioRef c); exact H.
  - unfold tick. destruct (outputContextRef c); exact H.
Qed.

Lemma ended_in_app (es1 es2 : list Event) :
  ended_in (es1 ++ es2) = ended_in es1 ++ ended_in es2.
Proof.
  induction es1 as [|e es1 IH]; [reflexivity|].
  destruct e; cbn [app ended_in]; now rewrite IH.
Qed.

Lemma accounted_run (es : list Event) (done : list nat) (c : Component) :
  accounted done c -> accounted (done ++ ended_in es) (run c es).
Proof.
  unfold run. revert done c.
  induction es as [|e es IH]; intros done c H; cbn [fold_left].
  - now rewrite app_nil_r.
  - change (e :: es) with ([e] ++ es).
    rewrite ended_in_app, app_assoc. apply IH, accounted_step, H.
Qed.

(** X13.  A flush silences everything still pending: if every unit was
    stopped or queued to begin with, then after any run followed by an
    interruption every unit ever scheduled has either been stopped or had
    already ended. *)
Theorem flush_stops_pending (c : Component) (es : list Event) :
  (forall n, In n (nodes c) ->
     stopped n = true \/ In (node_id n) (audioQueueRef c)) ->
  forall n, In n (nodes (onInterrupted (run c es))) ->
    stopped n = true \/ In (node_id n) (ended_in es).
Proof.
  intros H0 n Hn.
  assert (A0 : accounted [] c).
  { intros m Hm. destruct (H0 m Hm); auto. }
  pose proof (accounted_step _ _ Interruption (accounted_run es [] c A0)) as A.
  cbn [step ended_in app] in A. rewrite app_nil_r in A.
  destruct (A n Hn) as [K|[K|K]]; auto.
  exfalso. revert K. unfold onInterrupted, stopAllPlayback.
  destruct (outputContextRef (run c es)); cbn; auto.
Qed.

Lemma flush_stops_pending_witness :
  (forall n, In n (nodes busy0) ->
     stopped n = true \/ In (node_id n) (audioQueueRef busy0)) /\
  forall n, In n (nodes (onInterrupted (run busy0 mixed_run))) ->
    stopped n = true \/ In (node_id n) (ended_in mixed_run).
Proof.
  assert (H : forall n, In n (nodes busy0) ->
                stopped n = true \/ In (node_id n) (audioQueueRef busy0)).
  { intros n [<-|[]]. right. now left. }
  split; [exact H|].
  exact (flush_stops_pending busy0 mixed_run H).
Defined.

Lemma duration_nonneg (b : AudioBuffer) : 0 <= duration b.
Proof. unfold duration, Qle. cbn. lia. Qed.

Lemma cursor_step (n : nat) (k : Q) (c : Component) (e : Event) :
  is_interruption e = false ->
  (n <= List.length (nodes c))%nat /\ k <= nextStartTimeRef c /\
  Forall (fun u => when u + duration (buffer u) <= nextStartTimeRef c)
    (skipn n (nodes c)) ->
  (n <= List.length (nodes (step c e)))%nat /\
  k <= nextStartTimeRef (step c e) /\
  Forall (fun u => when u + duration (buffer u) <= nextStartTimeRef (step c e))
    (skipn n (nodes (step c e))).
Proof.
  intros He (Hn & Hk & Hall). destruct e as [b| |node|frame|t]; cbn [step].
  - unfold onAudio.
    destruct (outputContextRef c) as [ctx|]; [|now repeat split].
    destruct (pcmToAudioBuffer b ctx 24000) as [buf|]; [|now repeat split].
    cbn [set_playback nodes nextStartTimeRef].
    pose proof (Math_max_ge_r (currentTime ctx) (nextStartTimeRef c)) as Hm.
    pose proof (duration_nonneg buf) as Hd.
    rewrite length_app, (skipn_snoc _ _ _ _ Hn).
    split; [lia|]. split; [lra|].
    apply Forall_app. split.
    + eapply Forall_impl; [|exact Hall]. cbv beta. intros u Hu. lra.
    + constructor; [|constructor]. cbn [when buffer]. lra.
  - discriminate.
  - now repeat split.
  - unfold onaudioprocess. destruct (sendAudioRef c); now repeat split.
  - unfold tick. destruct (outputContextRef c); now repeat split.
Qed.

(** X14.  Without an interruption the cursor never moves back, and it is
    never before the end of a unit scheduled meanwhile: every such unit
    ends, at its start plus its duration, no later than where the cursor
    stands. *)
Theorem cursor_never_goes_back (c : Component) (es : list Event) :
  no_interruption es ->
  nextStartTimeRef c <= nextStartTimeRef (run c es) /\
  Forall (fun u =>
            when u + duration (buffer u) <= nextStartTimeRef (run c es))
    (scheduled_since (List.length (nodes c)) (run c es)).
Proof.
  intro Hes. unfold scheduled_since.
  set (n := List.length (nodes c)). set (k := nextStartTimeRef c).
  assert (G : forall l c',
             no_interruption l ->
             (n <= List.length (nodes c'))%nat /\ k <= nextStartTimeRef c' /\
             Forall (fun u => when u + duration (buffer u) <= nextStartTimeRef c')
               (skipn n (nodes c')) ->
             k <= nextStartTimeRef (run c' l) /\
             Forall (fun u =>
                       when u + duration (buffer u) <= nextStartTimeRef (run c' l))
               (skipn n (nodes (run c' l)))).
  { clear Hes. unfold no_interruption, run.
    induction l as [|e l IH]; intros c' Hl H; cbn [fold_left].
    - destruct H as (_ & H2 & H3). split; assumption.
    - cbn [forallb] in Hl. apply andb_true_iff in Hl as [He Hl].
      apply negb_true_iff in He.
      apply IH; [exact Hl|]. now apply cursor_step. }
  apply (G es c Hes). split; [lia|]. split; [unfold k; lra|].
  unfold n. rewrite skipn_all. constructor.
Qed.

Lemma cursor_never_goes_back_witness :
  no_interruption mixed_run /\
  nextStartTimeRef busy0 <= nextStartTimeRef (run busy0 mixed_run) /\
  Forall (fun u =>
            when u + duration (buffer u)
            <= nextStartTimeRef (run busy0 mixed_run))
    (scheduled_since (List.length (nodes busy0)) (run busy0 mixed_run)).
Proof.
  assert (H : no_interruption mixed_run) by reflexivity.
  split; [exact H|].
  exact (cursor_never_goes_back busy0 mixed_run H).
Defined.

End SchedulerExtras.

(* ------------------------------------------------------------------ *)
(** * Starting and stopping the session *)

Section SessionExtras.
Import Platform GeminiService LiveVoiceInterface Session Examples.
Local Open Scope Q_scope.

(** X15.  [stopSession] is idempotent, effects included: a second call
    changes nothing, closes no context again and disconnects nothing
    again.  So a stop that follows [onError] or [onClose] is a no-op. *)
Theorem stopSession_idempotent (w : World) :
  stopSession (stopSession w) = stopSession w /\
  stopSession (onError w) = onError w /\
  stopSession (onClose w) = onClose w.
Proof.
  assert (H : forall v, stopSession (stopSession v) = stopSession v).
  { intro v. unfold stopSession. cbn. reflexivity. }
  repeat split; apply H.
Qed.

Lemma map_stop_node_nil (l : list SourceNode) : map (stop_node []) l = l.
Proof.
  induction l as [|n l IH]; cbn [map]; [reflexivity|].
  rewrite IH. reflexivity.
Qed.

Lemma inert_step (c : Component) (e : Event) :
  outputContextRef c = None -> sendAudioRef c = None ->
  audioQueueRef c = [] -> step c e = c.
Proof.
  intros Ho Hs Hq. destruct e as [b| |node|frame|t]; cbn [step].
  - unfold onAudio. now rewrite Ho.
  - unfold onInterrupted, stopAllPlayback. rewrite Ho, Hq, map_stop_node_nil.
    destruct c. cbn in *. now subst.
  - unfold onended. rewrite Hq. destruct c. cbn in *. now subst.
  - unfold onaudioprocess. now rewrite Hs.
  - unfold tick. now rewrite Ho.
Qed.

(** X16.  After [stopSession] the component is inert: inbound chunks,
    interruptions, ended units, captured frames and clock readings all
    leave it exactly as it is; nothing is scheduled and nothing is sent. *)
Theorem stopped_session_inert (w : World) (es : list Event) :
  world_run (stopSession w) es = stopSession w.
Proof.
  unfold world_run. cbn [closed disconnected].
  assert (E : run (component (stopSession w)) es = component (stopSession w)).
  { unfold run. induction es as [|e es IH]; [reflexivity|].
    cbn [fold_left]. rewrite inert_step by reflexivity. exact IH. }
  rewrite E. reflexivity.
Qed.

(** X17.  When [getUserMedia] is refused, the [catch] of [startSession]
    closes the two audio contexts the call had created, input then output,
    and leaves every ref null and the queue empty.  The status it ends on
    is "Disconnected", the "Error" status being overwritten by
    [stopSession]; the error message stays. *)
Theorem refused_microphone_closes_contexts (err : string) (inputCtx outputCtx : AudioContext)
    (w : World) :
  let w1 := startSession_failed err (startSession_begin inputCtx outputCtx w) in
  closed w1 = closed w ++ [inputCtx; outputCtx] /\
  inputContextRef (component w1) = None /\
  outputContextRef (component w1) = None /\
  sendAudioRef (component w1) = None /\
  disconnectRef (component w1) = None /\
  audioQueueRef (component w1) = [] /\
  isActive (component w1) = false /\
  status (component w1) = "Disconnected"%string /\
  error (component w1)
    = Some "Microphone access failed or Connection rejected."%string.
Proof.
  cbv zeta. destruct w as [c cl dc].
  split.
  - change (closed (startSession_failed err
                      (startSession_begin inputCtx outputCtx (mkWorld c cl dc))))
      with ((cl ++ [inputCtx]) ++ [outputCtx]).
    now rewrite <- app_assoc.
  - repeat split.
Qed.

Lemma run_handles (es : list Event) (c : Component) (ctx : AudioContext) :
  outputContextRef c = Some ctx ->
  inputContextRef (run c es) = inputContextRef c /\
  disconnectRef (run c es) = disconnectRef c /\
  exists ctx', outputContextRef (run c es) = Some ctx' /\
               ctx_sampleRate ctx' = ctx_sampleRate ctx.
Proof.
  unfold run. revert c ctx.
  induction es as [|e es IH]; intros c ctx Hc; cbn [fold_left].
  - repeat split. now exists ctx.
  - assert (S : inputContextRef (step c e) = inputContextRef c /\
                disconnectRef (step c e) = disconnectRef c /\
                exists ctx', outputContextRef (step c e) = Some ctx' /\
                             ctx_sampleRate ctx' = ctx_sampleRate ctx).
    { destruct e as [b| |node|frame|t]; cbn [step].
      - unfold onAudio. rewrite Hc.
        destruct (pcmToAudioBuffer b ctx 24000); repeat split;
          exists ctx; split; auto.
      - unfold onInterrupted, stopAllPlayback. rewrite Hc.
        repeat split. exists ctx. split; auto.
      - repeat split. exists ctx. split; auto.
      - unfold onaudioprocess. destruct (sendAudioRef c); repeat split;
          exists ctx; split; auto.
      - unfold tick. rewrite Hc. repeat split. eexists. split; reflexivity. }
    destruct S as (S1 & S2 & ctx1 & S3 & S4).
    destruct (IH (step c e) ctx1 S3) as (I1 & I2 & ctx2 & I3 & I4).
    rewrite I1, I2, S1, S2. repeat split.
    exists ctx2. split; [exact I3|congruence].
Qed.

(** X18.  One [stopSession] after a started session has lived through
    any events calls [disconnect] once, on the connection it opened, and
    [close] once on each of its two audio contexts (the output context at
    its original sample rate), and leaves the refs null and the queue
    empty. *)
Theorem stop_closes_started_session (inputCtx outputCtx : AudioContext)
    (live : nat) (w : World) (es : list Event) :
  let started :=
    startSession_connected live
      (startSession_wired (startSession_begin inputCtx outputCtx w)) in
  let stopped := stopSession (world_run started es) in
  disconnected stopped = disconnected w ++ [live] /\
  (exists outputCtx',
     closed stopped = closed w ++ [inputCtx; outputCtx'] /\
     ctx_sampleRate outputCtx' = ctx_sampleRate outputCtx) /\
  inputContextRef (component stopped) = None /\
  outputContextRef (component stopped) = None /\
  sendAudioRef (component stopped) = None /\
  disconnectRef (component stopped) = None /\
  audioQueueRef (component stopped) = [].
Proof.
  cbv zeta.
  set (c1 := component (startSession_connected live
               (startSession_wired (startSession_begin inputCtx outputCtx w)))).
  destruct (run_handles es c1 outputCtx eq_refl) as (H1 & H2 & ctx' & H3 & H4).
  unfold stopSession, world_run.
  cbn [component closed disconnected].
  fold c1. rewrite H1, H2, H3.
  cbn [c1 startSession_connected startSession_wired startSession_begin
       setStatus component closed disconnected inputContextRef disconnectRef
       audioQueueRef sendAudioRef outputContextRef].
  repeat split.
  exists ctx'. split; [now rewrite <- app_assoc|exact H4].
Qed.

(** X19.  Starting a session puts the cursor at the output clock whatever
    it was before: the first chunk to arrive, while the clock has not gone
    back, starts at the reading of the clock at that moment. *)
Theorem start_resets_cursor (inputCtx outputCtx : AudioContext) (live : nat)
    (w : World) (es : list Event) (ctx' : AudioContext) (base64Audio : string)
    (buf : AudioBuffer) :
  let started :=
    component
      (startSession_connected live
         (startSession_wired (startSession_begin inputCtx outputCtx w))) in
  forallb is_quiet es = true ->
  outputContextRef (run started es) = Some ctx' ->
  currentTime outputCtx <= currentTime ctx' ->
  pcmToAudioBuffer base64Audio ctx' 24000 = Some buf ->
  nextStartTimeRef started = currentTime outputCtx /\
  exists u,
    nodes (onAudio base64Audio (run started es))
      = nodes (component w) ++ [u] /\
    buffer u = buf /\ when u == currentTime ctx'.
Proof.
  cbv zeta. intros Hes Hc Ht Hb.
  split; [reflexivity|].
  destruct (quiet_run es
              (component
                 (startSession_connected live
                    (startSession_wired
                       (startSession_begin inputCtx outputCtx w)))) Hes)
    as (H1 & H2 & _).
  rewrite (onAudio_scheduled _ ctx' base64Audio buf Hc Hb). cbv zeta.
  cbn [set_playback nodes]. rewrite H1, H2.
  cbn [startSession_connected startSession_wired startSession_begin setStatus
       component nodes nextStartTimeRef].
  eexists. split; [reflexivity|]. cbn [buffer when]. split; [reflexivity|].
  destruct (Math_max_spec (currentTime ctx') (currentTime outputCtx))
    as [[H ->]|[H ->]]; lra.
Qed.

Lemma start_resets_cursor_witness :
  forallb is_quiet [OutputClock 9] = true /\
  exists u,
    nodes (onAudio "AID/fw=="
             (run (component
                     (startSession_connected 1
                        (startSession_wired
                           (startSession_begin (mkAudioContext 16000 8)
                              (mkAudioContext 24000 8)
                              (stopSession (mkWorld busy0 [] []))))))
                [OutputClock 9]))
      = nodes busy0 ++ [u] /\
    when u == 9.
Proof.
  split; [reflexivity|].
  destruct (start_resets_cursor (mkAudioContext 16000 8) (mkAudioContext 24000 8)
              1 (stopSession (mkWorld busy0 [] [])) [OutputClock 9]
              (mkAudioContext 24000 9) "AID/fw=="%string
              (mkAudioBuffer 1 2 24000 [-32768 # 32768; 32767 # 32768]))
    as (_ & u & Hn & _ & Hw).
  - reflexivity.
  - reflexivity.
  - vm_compute. discriminate.
  - vm_compute. reflexivity.
  - exists u. split; [exact Hn|exact Hw].
Defined.

End SessionExtras.

(* ------------------------------------------------------------------ *)
(** * The canvas bars *)

Section VisualizerExtras.
Import Platform Visualizer.
Local Open Scope Q_scope.

(** X20.  A click on the button never draws a bar, whatever the canvas
    and the frequency data: the [startSession] it may run belongs to a
    render whose [isActive] is false, and the [draw] of that render returns
    at its first line. *)
Theorem click_draws_nothing (isActive : bool) (canvasRef : option Canvas)
    (analyserRef : option (list Z)) :
  click_draws isActive canvasRef analyserRef = [].
Proof.
  unfold click_draws, button_onClick.
  destruct isActive; [reflexivity|].
  unfold visualize, draw.
  destruct canvasRef; [destruct analyserRef|]; reflexivity.
Qed.

End VisualizerExtras.

(* ------------------------------------------------------------------ *)
(** * The capture pipeline *)

Section CaptureClaims.
Import Platform GeminiService LiveVoiceInterface LiveConnection.
Import CapturePipeline Examples.

Lemma pipeline_step_sendAudioRef (p : Pipeline) (e : PipelineEvent) :
  sendAudioRef (pl_component (pipeline_step p e))
  = sendAudioRef (pl_component p).
Proof.
  destruct e as [e'| |]; [|reflexivity|reflexivity].
  destruct e' as [b| |node|frame|t]; cbn [pipeline_step pl_component];
    try apply step_sendAudioRef.
  destruct (sendAudioRef (pl_component p)) eqn:E; cbn [pl_component];
    [|exact E].
  rewrite <- E. apply (step_sendAudioRef (pl_component p) (AudioProcess frame)).
Qed.

Lemma pipeline_connection (es : list PipelineEvent) (p : Pipeline) (h : nat) :
  sendAudioRef (pl_component p) = Some h ->
  pl_connection (pipeline_run p es)
  = live_run (pl_connection p) (connection_events es).
Proof.
  unfold pipeline_run, live_run. revert p.
  induction es as [|e es IH]; intros p Hs; [reflexivity|].
  cbn [fold_left].
  rewrite IH by (now rewrite pipeline_step_sendAudioRef).
  destruct e as [e'| |]; [|reflexivity|reflexivity].
  destruct e' as [b| |node|frame|t]; cbn [connection_events pipeline_step];
    try reflexivity.
  rewrite Hs. reflexivity.
Qed.

Lemma connection_events_requested (es : list PipelineEvent) :
  requested (connection_events es) = map wire_chunk (captured es).
Proof.
  induction es as [|e es IH]; [reflexivity|].
  destruct e as [e'| |]; cbn [connection_events requested captured map]; auto.
  destruct e'; cbn [connection_events requested captured map]; auto.
  now rewrite IH.
Qed.

Lemma connection_events_settled (es : list PipelineEvent) :
  settled (connection_events es) = session_outcome es.
Proof.
  induction es as [|e es IH]; [reflexivity|].
  destruct e as [e'| |]; cbn [connection_events settled session_outcome]; auto.
  destruct e'; cbn [connection_events settled session_outcome]; auto.
Qed.

(** C9, as stated, fails when the connection is refused: the frame is
    captured with the send path installed, its chunk waits on the session
    promise, the promise is rejected, and the session never receives
    anything. *)
Lemma capture_counterexample :
  sendAudioRef listening0 = Some 0%nat /\
  captured [OnComponent (AudioProcess (silence 4096)); SessionRefused]
    = [silence 4096] /\
  ~ exists chunk,
      calls (pl_connection
               (pipeline_run (mkPipeline listening0 connect)
                  [OnComponent (AudioProcess (silence 4096)); SessionRefused]))
      = [chunk].
Proof.
  split; [reflexivity|]. split; [reflexivity|].
  intros [chunk H]. cbn in H. discriminate.
Qed.

(** C9, amended.  While the send path is installed ([sendAudioRef] is not
    null), every captured frame of [n] samples gives exactly one chunk,
    with the MIME type [audio/pcm;rate=16000] and a payload that decodes
    to [2 * n] bytes.  Once the connection is open the session has
    received exactly these chunks, one per frame in capture order,
    whatever else happened in between and whether the frames came before
    or after the opening; while it is still opening they wait, in order;
    if it is refused the session receives none. *)
Theorem capture_emits (c : Component) (h : nat) (es : list PipelineEvent) :
  sendAudioRef c = Some h ->
  match session_outcome es with
  | Fulfilled =>
      calls (pl_connection (pipeline_run (mkPipeline c connect) es))
        = map wire_chunk (captured es) /\
      reactions (pl_connection (pipeline_run (mkPipeline c connect) es)) = []
  | Pending =>
      calls (pl_connection (pipeline_run (mkPipeline c connect) es)) = [] /\
      reactions (pl_connection (pipeline_run (mkPipeline c connect) es))
        = map wire_chunk (captured es)
  | Rejected =>
      calls (pl_connection (pipeline_run (mkPipeline c connect) es)) = [] /\
      reactions (pl_connection (pipeline_run (mkPipeline c connect) es)) = []
  end /\
  forall frame : Float32Array,
    mimeType (createPcmBlob frame) = "audio/pcm;rate=16000"%string /\
    exists bytes,
      decode (data (createPcmBlob frame)) = Some bytes /\
      List.length bytes = (2 * List.length frame)%nat.
Proof.
  intro Hs. split.
  - rewrite (pipeline_connection es (mkPipeline c connect) h Hs).
    cbn [pl_connection].
    pose proof (live_run_pending (connection_events es) connect eq_refl) as H.
    rewrite connection_events_settled, connection_events_requested in H.
    destruct (session_outcome es); cbn [reactions calls connect app] in H.
    + rewrite H. split; reflexivity.
    + rewrite H. split; reflexivity.
    + destruct H as (H1 & H2 & _). split; assumption.
  - intro frame. split; [reflexivity|].
    exists (Uint8Array_of_Int16Array (map pcm_sample frame)). split.
    + apply decode_encode_bytes.
    + now rewrite Uint8Array_of_Int16Array_length, length_map.
Qed.

Lemma capture_emits_witness :
  sendAudioRef listening0 = Some 0%nat /\
  calls (pl_connection
           (pipeline_run (mkPipeline listening0 connect)
              [OnComponent (AudioProcess (silence 4096));
               OnComponent (AudioProcess (silence 4096)); SessionOpens;
               OnComponent (OutputClock 1);
               OnComponent (AudioProcess (silence 4096))]))
    = [wire_chunk (silence 4096); wire_chunk (silence 4096);
       wire_chunk (silence 4096)] /\
  mimeType (createPcmBlob (silence 4096)) = "audio/pcm;rate=16000"%string /\
  exists bytes,
    decode (data (createPcmBlob (silence 4096))) = Some bytes /\
    List.length bytes = (2 * 4096)%nat.
Proof.
  split; [reflexivity|].
  destruct (capture_emits listening0 0%nat
              [OnComponent (AudioProcess (silence 4096));
               OnComponent (AudioProcess (silence 4096)); SessionOpens;
               OnComponent (OutputClock 1);
               OnComponent (AudioProcess (silence 4096))] eq_refl)
    as [Hrun Hframe].
  cbn [session_outcome captured map] in Hrun.
  split; [exact (proj1 Hrun)|].
  destruct (Hframe (silence 4096)) as (Hm & bytes & Hd & Hl).
  split; [exact Hm|].
  exists bytes. split; [exact Hd|].
  rewrite Hl. unfold silence. now rewrite repeat_length.
Defined.

End CaptureClaims.
